(** * SimpleVector: a growable array over an owned raw buffer

  A shallow embedding of [simple-vector/simple_vector.h] and the
  properties its specification states about it.

  Layout of the development:
  - [SizeT]: the arithmetic of [size_t];
  - [Raw]: indexed access to a run of slots and the element-wise loops
    of the standard algorithms the header calls ([std::copy],
    [std::move], [std::copy_backward], [std::fill], [std::equal],
    [std::lexicographical_compare]);
  - the [ArrayPtr] buffer handle, pointers, and the monad in which the
    member functions run (a state of the object and the allocator, with
    exceptions and faults);
  - the constructors and member functions of [SimpleVector], statement
    by statement;
  - the relational operators;
  - the observable state and the invariants;
  - lemmas about the loops and the member functions, the properties of
    the specification, and further properties of the header. *)

From Stdlib Require Import ZArith Lia String.
From stdpp Require Import base list.

Local Open Scope Z_scope.

(** ** [size_t] *)

Module SizeT.
(** [size_t] is an unsigned 64-bit integer: arithmetic wraps. *)
Definition modulus : Z := 2 ^ 64.
Definition wrap (x : Z) : Z := x mod modulus.
(** No array object is larger than [PTRDIFF_MAX] bytes, so no allocation
    of more than that many slots succeeds, whatever the element type. *)
Definition PTRDIFF_MAX : Z := 2 ^ 63 - 1.
End SizeT.

(** ** Raw slots and the standard algorithms *)

Module Raw.
Section Raw.
Context {T : Type}.

(** [p[i]] on a run of slots; [None] is an access outside the run. *)
Definition load (b : list T) (i : Z) : option T :=
  if 0 <=? i then b !! Z.to_nat i else None.

Definition store (b : list T) (i : Z) (x : T) : option (list T) :=
  if (0 <=? i) && (i <? Z.of_nat (length b))
  then Some (<[Z.to_nat i := x]> b) else None.

(** [std::copy(first, last, d_first)] (and [std::move], which for the
    values of this model leaves the source as it was) from one run of
    slots into another: [*d_first++ = *first++] until [first == last]. *)
Fixpoint copy_loop (n : nat) (src : list T) (first : Z)
         (dst : list T) (d_first : Z) : option (list T) :=
  match n with
  | O => Some dst
  | S n' =>
      match load src first with
      | None => None
      | Some x =>
          match store dst d_first x with
          | None => None
          | Some dst' => copy_loop n' src (first + 1) dst' (d_first + 1)
          end
      end
  end.

Definition copy (src : list T) (first last : Z) (dst : list T) (d_first : Z)
  : option (list T) :=
  if first <=? last
  then copy_loop (Z.to_nat (last - first)) src first dst d_first
  else None.

(** The same loop when source and destination are one buffer, as in
    [Erase]: every read sees the writes made before it. *)
Fixpoint move_loop (n : nat) (b : list T) (first d_first : Z)
  : option (list T) :=
  match n with
  | O => Some b
  | S n' =>
      match load b first with
      | None => None
      | Some x =>
          match store b d_first x with
          | None => None
          | Some b' => move_loop n' b' (first + 1) (d_first + 1)
          end
      end
  end.

Definition move_within (b : list T) (first last d_first : Z)
  : option (list T) :=
  if first <=? last
  then move_loop (Z.to_nat (last - first)) b first d_first
  else None.

(** [std::copy_backward(first, last, d_last)] within one buffer, as in
    [Insert]: [*(--d_last) = *(--last)] until [first == last]. *)
Fixpoint copy_backward_loop (n : nat) (b : list T) (last d_last : Z)
  : option (list T) :=
  match n with
  | O => Some b
  | S n' =>
      match load b (last - 1) with
      | None => None
      | Some x =>
          match store b (d_last - 1) x with
          | None => None
          | Some b' => copy_backward_loop n' b' (last - 1) (d_last - 1)
          end
      end
  end.

Definition copy_backward (b : list T) (first last d_last : Z)
  : option (list T) :=
  if first <=? last
  then copy_backward_loop (Z.to_nat (last - first)) b last d_last
  else None.

(** [std::fill(first, last, value)], and the loops of [Resize] that
    assign [Type{}] to every slot of a range. *)
Fixpoint fill_loop (n : nat) (b : list T) (first : Z) (value : T)
  : option (list T) :=
  match n with
  | O => Some b
  | S n' =>
      match store b first value with
      | None => None
      | Some b' => fill_loop n' b' (first + 1) value
      end
  end.

Definition fill (b : list T) (first last : Z) (value : T)
  : option (list T) :=
  if first <=? last
  then fill_loop (Z.to_nat (last - first)) b first value
  else None.

(** [std::equal(first1, last1, first2)] with the elements' [==]. *)
Fixpoint equal_loop (eq : T -> T -> bool) (n : nat)
         (b1 : list T) (first1 : Z) (b2 : list T) (first2 : Z)
  : option bool :=
  match n with
  | O => Some true
  | S n' =>
      match load b1 first1, load b2 first2 with
      | Some x, Some y =>
          if eq x y
          then equal_loop eq n' b1 (first1 + 1) b2 (first2 + 1)
          else Some false
      | _, _ => None
      end
  end.

Definition equal (eq : T -> T -> bool)
           (b1 : list T) (first1 last1 : Z) (b2 : list T) (first2 : Z)
  : option bool :=
  if first1 <=? last1
  then equal_loop eq (Z.to_nat (last1 - first1)) b1 first1 b2 first2
  else None.

(** [std::lexicographical_compare(first1, last1, first2, last2)] with
    the elements' [<]:
<<
    for (; first1 != last1 && first2 != last2; ++first1, ++first2) {
        if ( *first1 < *first2 ) return true;
        if ( *first2 < *first1 ) return false;
    }
    return first1 == last1 && first2 != last2;
>>
    [n1] and [n2] are the distances still to go in each range. *)
Fixpoint lexicographical_compare_loop (lt : T -> T -> bool) (n1 n2 : nat)
         (b1 : list T) (first1 : Z) (b2 : list T) (first2 : Z)
  : option bool :=
  match n1, n2 with
  | S n1', S n2' =>
      match load b1 first1, load b2 first2 with
      | Some x, Some y =>
          if lt x y then Some true
          else if lt y x then Some false
          else lexicographical_compare_loop lt n1' n2'
                 b1 (first1 + 1) b2 (first2 + 1)
      | _, _ => None
      end
  | O, S _ => Some true
  | _, O => Some false
  end.

Definition lexicographical_compare (lt : T -> T -> bool)
           (b1 : list T) (first1 last1 : Z)
           (b2 : list T) (first2 last2 : Z) : option bool :=
  if (first1 <=? last1) && (first2 <=? last2)
  then lexicographical_compare_loop lt
         (Z.to_nat (last1 - first1)) (Z.to_nat (last2 - first2))
         b1 first1 b2 first2
  else None.
End Raw.
End Raw.

(** ** The element type and the allocator *)

(** What the template parameter [Type] has to provide: value
  initialisation [Type{}] and, for the relational operators, its own
  [==] and [<]. An element is a value: copying, moving and assigning
  one replaces the content of a slot and does not throw, as for the
  built-in types. *)
Class Element (T : Type) := {
  value_init : T;
  elem_eq : T -> T -> bool;
  elem_lt : T -> T -> bool
}.

(** Modelled from the spec: the allocation primitive behind [ArrayPtr]
  ([array_ptr.h] is not part of the sources). It grants at most
  [heap_limit] slots in one request and fails with an out-of-memory
  error beyond that; [fresh_slot a i] is what slot [i] of the buffer at
  address [a] holds before anything is written to it. *)
Class Allocator (T : Type) := {
  heap_limit : Z;
  fresh_slot : Z -> nat -> T
}.

(** Modelled from the spec: [ArrayPtr<Type>], the owned buffer. It owns a
  contiguous run of slots exclusively, so the handle carries the slots
  themselves; [addr] is the identity of the allocation, [0] for the
  null buffer. *)
Record ArrayPtr (T : Type) := {
  addr : Z;
  slots : list T
}.
Arguments addr {T} _.
Arguments slots {T} _.

(** [Type*]: a position [off] slots into the allocation [base]. *)
Record ptr := { base : Z; off : Z }.

(** [const Type&], the parameter of [PushBack] and [Insert]: a reference
    to an object that no buffer of the vector holds, given by the
    object's value, or a reference into storage of the vector, as [v[i]]
    and [*it] give it, given by the pointer to the slot. The referenced
    object is read when the function copies from it, not when the call
    is made. *)
Inductive cref (T : Type) :=
| object (x : T)
| element (p : ptr).
Arguments object {T} _.
Arguments element {T} _.

(** [ReserveProxyObj] and the free function [Reserve]. *)
Module ReserveProxyObj.
Record t := { capacity_ : Z }.
Definition GetCapacity (obj : t) : Z := capacity_ obj.
Definition Reserve (capacity_to_reserve : Z) : t :=
  {| capacity_ := capacity_to_reserve |}.
End ReserveProxyObj.

(** The data members of [SimpleVector<Type>]. *)
Record SimpleVector (T : Type) := {
  items_ : ArrayPtr T;
  size_ : Z;
  capacity_ : Z
}.
Arguments items_ {T} _.
Arguments size_ {T} _.
Arguments capacity_ {T} _.

(** ** The monad of member functions *)

(** A member function runs on the object [this] and the allocator, whose
  state is the next unused address [brk]. *)
Record world (T : Type) := {
  this : SimpleVector T;
  brk : Z
}.
Arguments this {T} _.
Arguments brk {T} _.

Inductive exn :=
| out_of_range (what : string)
| bad_alloc.

(** Behaviour the language leaves undefined, and a failed [assert]. *)
Inductive fault :=
| assertion_failed
| out_of_bounds
| unrelated_pointers
| dangling_reference.

(** A call returns a value, or throws and leaves the object in the state
  it had reached, or faults. *)
Inductive result (T A : Type) :=
| Returns (a : A) (w : world T)
| Throws (e : exn) (w : world T)
| Faults (f : fault).
Arguments Returns {T A} _ _.
Arguments Throws {T A} _ _.
Arguments Faults {T A} _.

Definition M (T A : Type) : Type := world T -> result T A.

Global Instance M_ret {T} : MRet (M T) := fun A a w => Returns a w.
Global Instance M_bind {T} : MBind (M T) := fun A B f m w =>
  match m w with
  | Returns a w' => f a w'
  | Throws e w' => Throws e w'
  | Faults x => Faults x
  end.

Section SimpleVector.
Context {T : Type} `{Element T} `{Allocator T}.

Definition throw {A} (e : exn) : M T A := fun w => Throws e w.
Definition assert (b : bool) : M T unit :=
  fun w => if b then Returns tt w else Faults assertion_failed.
(** An access through a raw pointer: outside the buffer it faults. *)
Definition raw {A} (o : option A) : M T A :=
  fun w => match o with Some a => Returns a w | None => Faults out_of_bounds end.

Definition get {A} (field : SimpleVector T -> A) : M T A :=
  fun w => Returns (field (this w)) w.
Definition set_items_ (b : ArrayPtr T) : M T unit := fun w =>
  Returns tt {| this := {| items_ := b; size_ := size_ (this w);
                           capacity_ := capacity_ (this w) |};
                brk := brk w |}.
Definition set_size_ (n : Z) : M T unit := fun w =>
  Returns tt {| this := {| items_ := items_ (this w); size_ := n;
                           capacity_ := capacity_ (this w) |};
                brk := brk w |}.
Definition set_capacity_ (n : Z) : M T unit := fun w =>
  Returns tt {| this := {| items_ := items_ (this w); size_ := size_ (this w);
                           capacity_ := n |};
                brk := brk w |}.

(** *** [ArrayPtr] *)

Definition null : ArrayPtr T := {| addr := 0; slots := [] |}.

(** Modelled from the spec: [ArrayPtr<Type>(n)] acquires [n] raw slots;
    [n = 0] yields the null buffer; a request that cannot be granted
    propagates as an out-of-memory error. *)
Definition ArrayPtr_new (n : Z) : M T (ArrayPtr T) := fun w =>
  if n =? 0 then Returns null w
  else if n <=? Z.min heap_limit SizeT.PTRDIFF_MAX
  then Returns {| addr := brk w;
                  slots := fresh_slot (brk w) <$> seq 0 (Z.to_nat n) |}
               {| this := this w; brk := brk w + 1 |}
  else Throws bad_alloc w.

(** Modelled from the spec: [Get()], the pointer to slot 0. *)
Definition Get (b : ArrayPtr T) : ptr := {| base := addr b; off := 0 |}.

(** Modelled from the spec: [items_.swap(temp)] exchanges the owned
    storage; the result is what [temp] owns afterwards. *)
Definition items_swap (temp : ArrayPtr T) : M T (ArrayPtr T) :=
  old ← get items_; set_items_ temp;; mret old.

(** Modelled from the spec: [items_[i]], unchecked. *)
Definition items_at (i : Z) : M T T :=
  items ← get items_; raw (Raw.load (slots items) i).
Definition items_assign (i : Z) (x : T) : M T unit :=
  items ← get items_;
  s ← raw (Raw.store (slots items) i x);
  set_items_ {| addr := addr items; slots := s |}.

Definition fail {A} (f : fault) : M T A := fun _ => Faults f.

(** Reading through a [const Type&]. A reference into storage of the
    vector reads the slot as it is now, in the buffer a local [temp]
    still owns or in the one [items_] owns; when the buffer it points
    into has been released, the reference dangles. *)
Definition deref (r : cref T) (temp : option (ArrayPtr T)) : M T T :=
  match r with
  | object x => mret x
  | element p =>
      items ← get items_;
      match temp with
      | Some t =>
          if base p =? addr t then raw (Raw.load (slots t) (off p))
          else if base p =? addr items then raw (Raw.load (slots items) (off p))
          else fail dangling_reference
      | None =>
          if base p =? addr items then raw (Raw.load (slots items) (off p))
          else fail dangling_reference
      end
  end.

(** *** Pointers *)

Definition ptr_add (p : ptr) (n : Z) : ptr :=
  {| base := base p; off := off p + n |}.
(** Comparing or subtracting pointers into different allocations has
    no defined result. *)
Definition ptr_le (p q : ptr) : M T bool := fun w =>
  if base p =? base q then Returns (off p <=? off q) w
  else Faults unrelated_pointers.
Definition ptr_lt (p q : ptr) : M T bool := fun w =>
  if base p =? base q then Returns (off p <? off q) w
  else Faults unrelated_pointers.
Definition ptr_diff (p q : ptr) : M T Z := fun w =>
  if base p =? base q then Returns (off p - off q) w
  else Faults unrelated_pointers.

(** *** Constructors

    A constructor runs on a fresh object, whose members hold their
    default initialisers ([items_] null, [size_ = 0], [capacity_ = 0])
    until the constructor's initialiser list or body assigns them. *)

Definition blank : SimpleVector T :=
  {| items_ := null; size_ := 0; capacity_ := 0 |}.

Definition construct {A} (ctor : M T A) (heap : Z) : result T A :=
  ctor {| this := blank; brk := heap |}.

Definition set_slots (s : list T) : M T unit :=
  items ← get items_; set_items_ {| addr := addr items; slots := s |}.

(** Iterators and the size queries are [const] and [noexcept]. *)
Definition begin (v : SimpleVector T) : ptr := Get (items_ v).
Definition end_ (v : SimpleVector T) : ptr := ptr_add (Get (items_ v)) (size_ v).
Definition cbegin (v : SimpleVector T) : ptr := Get (items_ v).
Definition cend (v : SimpleVector T) : ptr := ptr_add (Get (items_ v)) (size_ v).
Definition GetSize (v : SimpleVector T) : Z := size_ v.
Definition GetCapacity (v : SimpleVector T) : Z := capacity_ v.
Definition IsEmpty (v : SimpleVector T) : bool :=
  if size_ v =? 0 then true else false.

(** [SimpleVector() noexcept = default] *)
Definition SimpleVector_default : M T unit := mret tt.

(** [explicit SimpleVector(size_t size)] *)
Definition SimpleVector_size (size : Z) : M T unit :=
  items ← ArrayPtr_new size;
  set_items_ items;; set_size_ size;; set_capacity_ size;;
  b ← get begin; e ← get end_; items ← get items_;
  s ← raw (Raw.fill (slots items) (off b) (off e) value_init);
  set_slots s.

(** [SimpleVector(size_t size, const Type& value)] *)
Definition SimpleVector_size_value (size : Z) (value : T) : M T unit :=
  items ← ArrayPtr_new size;
  set_items_ items;; set_size_ size;; set_capacity_ size;;
  b ← get begin; e ← get end_; items ← get items_;
  s ← raw (Raw.fill (slots items) (off b) (off e) value);
  set_slots s.

(** [SimpleVector(std::initializer_list<Type> init)] *)
Definition SimpleVector_init (init : list T) : M T unit :=
  let init_size := Z.of_nat (length init) in
  items ← ArrayPtr_new init_size;
  set_items_ items;; set_size_ init_size;; set_capacity_ init_size;;
  items ← get items_;
  s ← raw (Raw.copy init 0 init_size (slots items) (off (Get items)));
  set_slots s.

(** [SimpleVector(const SimpleVector& other)]: the initialiser list
    names [items_] and [size_] only, so [capacity_] keeps its default
    member initialiser. *)
Definition SimpleVector_copy (other : SimpleVector T) : M T unit :=
  items ← ArrayPtr_new (capacity_ other);
  set_items_ items;; set_size_ (size_ other);;
  items ← get items_;
  s ← raw (Raw.copy (slots (items_ other)) (off (begin other)) (off (end_ other))
                    (slots items) (off (Get items)));
  set_slots s.

(** *** Member functions *)

(** [operator[]] *)
Definition subscript (index : Z) : M T T :=
  size ← get size_;
  assert (index <? size);;
  items_at index.

(** [operator[]] where the caller keeps the [Type&] it returns instead of
    reading it at once, as in [v.PushBack(v[0])]. *)
Definition subscript_ref (index : Z) : M T (cref T) :=
  size ← get size_;
  assert (index <? size);;
  items ← get items_; mret (element (ptr_add (Get items) index)).

Definition At (index : Z) : M T T :=
  size ← get size_;
  if size <=? index then throw (out_of_range "Index is out of range")
  else items_at index.

Definition Clear : M T unit := set_size_ 0.

Definition Erase (pos : ptr) : M T ptr :=
  b ← get begin; e ← get end_;
  ge ← ptr_le b pos; lt ← ptr_lt pos e;
  assert (ge && lt);;
  cb ← get cbegin;
  index ← ptr_diff pos cb;
  b ← get begin; e ← get end_; items ← get items_;
  s ← raw (Raw.move_within (slots items)
             (off (ptr_add (ptr_add b index) 1)) (off e) (off (ptr_add b index)));
  set_slots s;;
  size ← get size_; set_size_ (SizeT.wrap (size - 1));;
  items ← get items_; mret (ptr_add (Get items) index).

(** [Insert(ConstIterator, const Type&)]; the overload taking [Type&&]
    is the same text with [std::move] in place of each copy. [value] is
    read at [items_[...] = value]: in the branches that allocate, the
    local [temp] owns the old buffer at that point. *)
Definition Insert (pos : ptr) (value : cref T) : M T ptr :=
  b ← get begin; e ← get end_;
  ge ← ptr_le b pos; le ← ptr_le pos e;
  assert (ge && le);;
  index ← ptr_diff pos b;
  capacity ← get capacity_;
  (if capacity =? 0 then
     temp ← ArrayPtr_new 1;
     temp ← items_swap temp;
     x ← deref value (Some temp);
     items_assign 0 x;;
     set_capacity_ (SizeT.wrap (capacity + 1))
   else
     size ← get size_;
     if size <? capacity then
       items ← get items_;
       s ← raw (Raw.copy_backward (slots items)
                  (off (Get items) + index) (off (Get items) + size)
                  (off (Get items) + size + 1));
       set_slots s;;
       x ← deref value None;
       items_assign index x
     else
       temp ← ArrayPtr_new (SizeT.wrap (capacity * 2));
       b ← get begin; e ← get end_; items ← get items_;
       s ← raw (Raw.copy (slots items) (off b) (off (ptr_add b index))
                         (slots temp) (off (Get temp)));
       s ← raw (Raw.copy (slots items) (off (ptr_add b index)) (off e)
                         s (off (Get temp) + index + 1));
       temp ← items_swap {| addr := addr temp; slots := s |};
       x ← deref value (Some temp);
       items_assign index x;;
       set_capacity_ (SizeT.wrap (capacity * 2)));;
  size ← get size_; set_size_ (SizeT.wrap (size + 1));;
  items ← get items_; mret (ptr_add (Get items) index).

Definition PopBack : M T unit :=
  size ← get size_;
  if 0 <? size then set_size_ (SizeT.wrap (size - 1)) else mret tt.

(** [PushBack(const Type&)]; the overload taking [Type&&] is the same
    text with [std::move]. [item] is read at [items_[size_] = item],
    after the block of the growth step has ended and its local [temp],
    which owned the old buffer, has been destroyed. *)
Definition PushBack (item : cref T) : M T unit :=
  size ← get size_; capacity ← get capacity_;
  (if size <? capacity then mret tt
   else if capacity =? 0 then
     temp ← ArrayPtr_new 1;
     items_swap temp;;
     set_capacity_ (SizeT.wrap (capacity + 1))
   else
     let new_capacity := SizeT.wrap (capacity * 2) in
     temp ← ArrayPtr_new new_capacity;
     b ← get begin; e ← get end_; items ← get items_;
     s ← raw (Raw.copy (slots items) (off b) (off e) (slots temp) (off (Get temp)));
     items_swap {| addr := addr temp; slots := s |};;
     set_capacity_ new_capacity);;
  size ← get size_;
  x ← deref item None;
  items_assign size x;;
  set_size_ (SizeT.wrap (size + 1)).

Definition Reserve (new_capacity : Z) : M T unit :=
  capacity ← get capacity_;
  if capacity <? new_capacity then
    temp ← ArrayPtr_new new_capacity;
    b ← get begin; e ← get end_; items ← get items_;
    s ← raw (Raw.copy (slots items) (off b) (off e) (slots temp) (off (Get temp)));
    items_swap {| addr := addr temp; slots := s |};;
    set_capacity_ new_capacity
  else mret tt.

Definition Resize (new_size : Z) : M T unit :=
  size ← get size_; capacity ← get capacity_;
  if new_size <=? size then set_size_ new_size
  else if new_size <=? capacity then
    b ← get begin; items ← get items_;
    s ← raw (Raw.fill (slots items)
               (off (ptr_add b size)) (off (ptr_add b new_size)) value_init);
    set_slots s;;
    set_size_ new_size
  else if SizeT.wrap (capacity * 2) <? new_size then
    temp ← ArrayPtr_new new_size;
    b ← get begin; e ← get end_; items ← get items_;
    s ← raw (Raw.copy (slots items) (off b) (off e) (slots temp) (off (Get temp)));
    s ← raw (Raw.fill s (off (Get temp) + size) (off (Get temp) + new_size) value_init);
    items_swap {| addr := addr temp; slots := s |};;
    set_size_ new_size;;
    set_capacity_ new_size
  else
    temp ← ArrayPtr_new (SizeT.wrap (capacity * 2));
    b ← get begin; e ← get end_; items ← get items_;
    s ← raw (Raw.copy (slots items) (off b) (off e) (slots temp) (off (Get temp)));
    s ← raw (Raw.fill s (off (Get temp) + size) (off (Get temp) + new_size) value_init);
    items_swap {| addr := addr temp; slots := s |};;
    set_size_ new_size;;
    set_capacity_ (SizeT.wrap (capacity * 2)).

(** [swap(SimpleVector& other)]; the result is [other] after the call. *)
Definition swap (other : SimpleVector T) : M T (SimpleVector T) :=
  other_items ← items_swap (items_ other);
  size ← get size_; set_size_ (size_ other);;
  capacity ← get capacity_; set_capacity_ (capacity_ other);;
  mret {| items_ := other_items; size_ := size; capacity_ := capacity |}.

(** [explicit SimpleVector(ReserveProxyObj obj)] *)
Definition SimpleVector_reserve (obj : ReserveProxyObj.t) : M T unit :=
  Reserve (ReserveProxyObj.GetCapacity obj).

(** [SimpleVector(SimpleVector&& other)]; the result is the source
    object after the move. *)
Definition SimpleVector_move (other : SimpleVector T) : M T (SimpleVector T) :=
  swap other.

(** A temporary object: its constructor runs on the same allocator, and
    the value of the expression is the object it leaves. *)
Definition temporary (ctor : M T unit) : M T (SimpleVector T) := fun w =>
  match construct ctor (brk w) with
  | Returns _ wt => Returns (this wt) {| this := this w; brk := brk wt |}
  | Throws e wt => Throws e {| this := this w; brk := brk wt |}
  | Faults f => Faults f
  end.

(** [operator=(const SimpleVector& rhs)]. The guard
    [&items_ != &rhs.items_] compares the addresses of the [items_]
    members of the two objects, so it is false exactly when [rhs] is this
    object: [None] stands for that call, [Some rhs] for a call with
    another object. [swap(SimpleVector&&)] has the text of
    [swap(SimpleVector&)]; the temporary is destroyed after the swap. *)
Definition operator_assign (rhs : option (SimpleVector T)) : M T unit :=
  match rhs with
  | None => mret tt
  | Some rhs => tmp ← temporary (SimpleVector_copy rhs); swap tmp;; mret tt
  end.

(** *** Relational operators

    They only read; [None] is a read outside one of the buffers. *)

Definition operator_eq (lhs rhs : SimpleVector T) : option bool :=
  if negb (GetSize lhs =? GetSize rhs) then Some false
  else Raw.equal elem_eq (slots (items_ lhs)) (off (begin lhs)) (off (end_ lhs))
                         (slots (items_ rhs)) (off (begin rhs)).

Definition operator_ne (lhs rhs : SimpleVector T) : option bool :=
  negb <$> operator_eq lhs rhs.

Definition operator_lt (lhs rhs : SimpleVector T) : option bool :=
  Raw.lexicographical_compare elem_lt
    (slots (items_ lhs)) (off (begin lhs)) (off (end_ lhs))
    (slots (items_ rhs)) (off (begin rhs)) (off (end_ rhs)).

(** [lhs < rhs || lhs == rhs]: [==] is evaluated only if [<] is false. *)
Definition operator_le (lhs rhs : SimpleVector T) : option bool :=
  match operator_lt lhs rhs with
  | Some true => Some true
  | Some false => operator_eq lhs rhs
  | None => None
  end.

Definition operator_gt (lhs rhs : SimpleVector T) : option bool :=
  operator_lt rhs lhs.

Definition operator_ge (lhs rhs : SimpleVector T) : option bool :=
  negb <$> operator_lt lhs rhs.
End SimpleVector.

(** ** Observable state, invariants and client code *)

Section Observations.
Context {T : Type} `{Element T} `{Allocator T}.

(** The largest request the allocator grants. *)
Definition limit : Z := Z.max 0 (Z.min heap_limit SizeT.PTRDIFF_MAX).

(** The capacity after a growth step: 1 from 0, twice the old one
    otherwise. *)
Definition grown (c : Z) : Z := if c =? 0 then 1 else 2 * c.

(** The visible sequence: the slots at positions [0, size). *)
Definition elements (v : SimpleVector T) : list T :=
  take (Z.to_nat (size_ v)) (slots (items_ v)).

(** The visible elements lie inside the buffer. *)
Definition Stored (v : SimpleVector T) : Prop :=
  0 <= size_ v <= Z.of_nat (length (slots (items_ v))).

(** The state invariant of the data model: [0 <= size <= capacity],
    where [capacity] counts the allocated slots, which the allocator
    granted. *)
Definition Inv (v : SimpleVector T) : Prop :=
  0 <= size_ v <= capacity_ v /\
  capacity_ v = Z.of_nat (length (slots (items_ v))) /\
  capacity_ v <= limit.

(** The buffer of [v] was allocated before the allocator reached [heap]. *)
Definition Allocated (heap : Z) (v : SimpleVector T) : Prop :=
  0 < heap /\ 0 <= addr (items_ v) < heap.

(** Lexicographic order in the spec's words: the sequences agree (neither
    element is less than the other) up to a position where either the
    left one ends and the right one goes on, or the left element is less
    than the right one. *)
Definition LexLess (xs ys : list T) : Prop :=
  exists k : nat,
    (forall i x y, (i < k)%nat -> xs !! i = Some x -> ys !! i = Some y ->
                   elem_lt x y = false /\ elem_lt y x = false) /\
    (k <= length xs)%nat /\ (k <= length ys)%nat /\
    ((k = length xs /\ (k < length ys)%nat) \/
     (exists x y, xs !! k = Some x /\ ys !! k = Some y /\ elem_lt x y = true)).

(** Pairwise equality in the spec's words: elements at the same
    position are equal by the element type's [==]. *)
Definition PairwiseEq (xs ys : list T) : Prop :=
  forall i x y, xs !! i = Some x -> ys !! i = Some y -> elem_eq x y = true.

(** The two comparison loops, read on the visible sequences. *)
Fixpoint all_eqb (xs ys : list T) : bool :=
  match xs, ys with
  | x :: xs', y :: ys' => if elem_eq x y then all_eqb xs' ys' else false
  | _, _ => true
  end.

Fixpoint lex_ltb (xs ys : list T) : bool :=
  match xs, ys with
  | x :: xs', y :: ys' =>
      if elem_lt x y then true
      else if elem_lt y x then false
      else lex_ltb xs' ys'
  | [], _ :: _ => true
  | _, [] => false
  end.

(** Client code: [for (x : xs) v.PushBack(x);], the values being objects
    of their own. *)
Fixpoint PushBack_all (xs : list T) : M T unit :=
  match xs with
  | [] => mret tt
  | x :: xs' => PushBack (object x);; PushBack_all xs'
  end.

(** Client code: [k] calls of [v.PopBack()]. *)
Fixpoint PopBack_times (k : nat) : M T unit :=
  match k with
  | O => mret tt
  | S k' => PopBack;; PopBack_times k'
  end.

(** Running a member function on an object. *)
Definition call {A} (m : M T A) (v : SimpleVector T) (heap : Z) : result T A :=
  m {| this := v; brk := heap |}.
(** The constructors and member functions through which a vector is
    built and changed, the copy constructor left aside: [Built v] says
    that [v] is reached by them alone. Size arguments are [size_t]
    values, so not negative; a cursor argument is [begin() + k]. *)
Inductive ctor : Type :=
| ctor_default
| ctor_size (size : Z)
| ctor_size_value (size : Z) (value : T)
| ctor_init (init : list T)
| ctor_reserve (capacity_to_reserve : Z).

Definition run_ctor (c : ctor) : M T unit :=
  match c with
  | ctor_default => SimpleVector_default
  | ctor_size size => SimpleVector_size size
  | ctor_size_value size value => SimpleVector_size_value size value
  | ctor_init init => SimpleVector_init init
  | ctor_reserve n => SimpleVector_reserve (ReserveProxyObj.Reserve n)
  end.

Inductive method : Type :=
| m_PushBack (item : cref T)
| m_PopBack
| m_Insert (k : Z) (value : cref T)
| m_Erase (k : Z)
| m_Clear
| m_Reserve (new_capacity : Z)
| m_Resize (new_size : Z).

Definition run_method (m : method) : M T unit :=
  match m with
  | m_PushBack item => PushBack item
  | m_PopBack => PopBack
  | m_Insert k value => b ← get begin; Insert (ptr_add b k) value;; mret tt
  | m_Erase k => b ← get begin; Erase (ptr_add b k);; mret tt
  | m_Clear => Clear
  | m_Reserve n => Reserve n
  | m_Resize n => Resize n
  end.

Definition ctor_args (c : ctor) : Prop :=
  match c with
  | ctor_size n | ctor_size_value n _ | ctor_reserve n => 0 <= n
  | _ => True
  end.

Definition method_args (m : method) : Prop :=
  match m with
  | m_Reserve n | m_Resize n => 0 <= n
  | _ => True
  end.

Inductive Built : SimpleVector T -> Prop :=
| Built_ctor c h w :
    ctor_args c -> construct (run_ctor c) h = Returns tt w -> Built (this w)
| Built_returns m v h w' :
    Built v -> method_args m ->
    call (run_method m) v h = Returns tt w' -> Built (this w')
| Built_throws m v h e w' :
    Built v -> method_args m ->
    call (run_method m) v h = Throws e w' -> Built (this w')
| Built_move other h source w' :
    Built other ->
    construct (SimpleVector_move other) h = Returns source w' ->
    Built (this w')
| Built_moved_from other h source w' :
    Built other ->
    construct (SimpleVector_move other) h = Returns source w' ->
    Built source
| Built_swap v other h other' w' :
    Built v -> Built other ->
    call (swap other) v h = Returns other' w' -> Built (this w')
| Built_swapped v other h other' w' :
    Built v -> Built other ->
    call (swap other) v h = Returns other' w' -> Built other'.

(** The capacity is a power of two below twice the size: what repeated
    growth steps from an empty vector leave. *)
Definition tight (v : SimpleVector T) : Prop :=
  capacity_ v < 2 * size_ v /\ exists k : nat, capacity_ v = 2 ^ Z.of_nat k.

(** A reference argument is an object of its own or a visible element of
    the vector. *)
Definition ref_ok (v : SimpleVector T) (r : cref T) : Prop :=
  match r with
  | object _ => True
  | element p => base p = addr (items_ v) /\ 0 <= off p < size_ v
  end.

(** The value such a reference has when the call is made. *)
Definition ref_value (v : SimpleVector T) (r : cref T) : option T :=
  match r with
  | object x => Some x
  | element p => elements v !! Z.to_nat (off p)
  end.

(** The position whose former content slot [j] holds once [Insert] has
    shifted the elements from [k] on by one: the slots before [k] and
    slot [k] itself are as they were. *)
Definition before_shift (k j : Z) : Z := if j <=? k then j else j - 1.

(** The value [Insert] at position [k] reads through its argument: in
    place it reads after the shift, in a growth step from the old
    buffer. *)
Definition inserted (v : SimpleVector T) (k : Z) (r : cref T) : option T :=
  match r with
  | object x => Some x
  | element p =>
      elements v !! Z.to_nat (if size_ v <? capacity_ v
                              then before_shift k (off p) else off p)
  end.

Definition ref_args (m : method) (v : SimpleVector T) : Prop :=
  match m with
  | m_PushBack r | m_Insert _ r => ref_ok v r
  | _ => True
  end.

(** The cursor of a call lies where the [assert] of [Insert] or [Erase]
    wants it. *)
Definition cursor_args (m : method) (v : SimpleVector T) : Prop :=
  match m with
  | m_Insert k _ => 0 <= k <= size_ v
  | m_Erase k => 0 <= k < size_ v
  | _ => True
  end.

(** The call needs no growth step: there is a free slot for the new
    element, or the requested size or capacity is within the capacity. *)
Definition fits (m : method) (v : SimpleVector T) : Prop :=
  match m with
  | m_PushBack _ | m_Insert _ _ => size_ v < capacity_ v
  | m_Reserve n | m_Resize n => n <= capacity_ v
  | _ => True
  end.
End Observations.

(** Element types whose [==] is equality and whose [<] is a strict total
    order, as for the built-in integers. *)
Class LawfulElement (T : Type) `{Element T} : Prop := {
  elem_eq_true : forall x y : T, elem_eq x y = true <-> x = y;
  elem_lt_irrefl : forall x : T, elem_lt x x = false;
  elem_lt_asym : forall x y : T, elem_lt x y = true -> elem_lt y x = false;
  elem_lt_connected :
    forall x y : T, elem_lt x y = false -> elem_lt y x = false -> x = y
}.

(** [int] elements, and a small heap, for the concrete runs. *)
Global Instance int_element : Element Z :=
  {| value_init := 0; elem_eq := Z.eqb; elem_lt := Z.ltb |}.

Global Instance small_heap : Allocator Z :=
  {| heap_limit := 1000; fresh_slot := fun a i => -1 - Z.of_nat i |}.

(** The vectors [{1, 2, 3}] and [{1, 2, 4}] as their constructors leave
    them, at addresses 1 and 2. *)
Definition v123 : SimpleVector Z :=
  {| items_ := {| addr := 1; slots := [1; 2; 3] |}; size_ := 3; capacity_ := 3 |}.
Definition v124 : SimpleVector Z :=
  {| items_ := {| addr := 2; slots := [1; 2; 4] |}; size_ := 3; capacity_ := 3 |}.

(** The vector [{1, 2}] as its constructor leaves it. *)
Definition v12 : SimpleVector Z :=
  {| items_ := {| addr := 1; slots := [1; 2] |}; size_ := 2; capacity_ := 2 |}.

(** The vector [{1, 2}] after [Reserve(4)]: two elements, two slots never
    written. *)
Definition v12r : SimpleVector Z :=
  {| items_ := {| addr := 2; slots := [1; 2; -3; -4] |}; size_ := 2; capacity_ := 4 |}.

(** What the copy constructor makes of [v123] when the next unused
    address is 2. *)
Definition copy_of_v123 : SimpleVector Z :=
  {| items_ := {| addr := 2; slots := [1; 2; 3] |}; size_ := 3; capacity_ := 0 |}.

(** The vector [{5}] as one [PushBack(5)] on an empty vector leaves it,
    and the reference [a[0]] to its element. *)
Definition v5 : SimpleVector Z :=
  {| items_ := {| addr := 1; slots := [5] |}; size_ := 1; capacity_ := 1 |}.
Definition v5_0 : cref Z := element {| base := 1; off := 0 |}.

(** The vector [{1, 2, 3}] after [Reserve(4)], and the reference [a[2]]
    to its last element. *)
Definition v123r : SimpleVector Z :=
  {| items_ := {| addr := 2; slots := [1; 2; 3; -4] |}; size_ := 3; capacity_ := 4 |}.
Definition v123r_2 : cref Z := element {| base := 2; off := 2 |}.

(** * Properties *)

(** ** [size_t] arithmetic *)

Lemma wrap_small x : 0 <= x < SizeT.modulus -> SizeT.wrap x = x.
Proof. intros Hx. unfold SizeT.wrap. by apply Z.mod_small. Qed.

Lemma wrap_range x : 0 <= SizeT.wrap x < SizeT.modulus.
Proof. unfold SizeT.wrap. apply Z.mod_pos_bound. by compute. Qed.

Lemma PTRDIFF_MAX_twice : 2 * SizeT.PTRDIFF_MAX < SizeT.modulus.
Proof. by compute. Qed.

Global Arguments SizeT.wrap : simpl never.
Global Arguments SizeT.modulus : simpl never.
Global Arguments SizeT.PTRDIFF_MAX : simpl never.

(** ** The loops of the standard algorithms

  Within bounds each loop computes the list one expects of it; the
  results are stated with [take] and [drop] on the slots. *)

Section RawFacts.
Context {T : Type}.
Implicit Types (b src dst : list T) (n : nat) (x : T).

Lemma load_Some b i :
  0 <= i < Z.of_nat (length b) ->
  exists x, Raw.load b i = Some x /\ b !! Z.to_nat i = Some x.
Proof.
  intros Hi. unfold Raw.load.
  destruct (lookup_lt_is_Some_2 b (Z.to_nat i)) as [x Hx]; [lia|].
  exists x. split; [|done].
  destruct (Z.leb_spec 0 i); [done | lia].
Qed.

Lemma load_lookup b i : 0 <= i -> Raw.load b i = b !! Z.to_nat i.
Proof. intros Hi. unfold Raw.load. destruct (Z.leb_spec 0 i); [done | lia]. Qed.

Lemma store_Some b i x :
  0 <= i < Z.of_nat (length b) ->
  Raw.store b i x = Some (<[Z.to_nat i := x]> b).
Proof.
  intros Hi. unfold Raw.store.
  destruct (Z.leb_spec 0 i); [|lia].
  destruct (Z.ltb_spec i (Z.of_nat (length b))); [done | lia].
Qed.

Lemma store_None b i x :
  ~ (0 <= i < Z.of_nat (length b)) -> Raw.store b i x = None.
Proof.
  intros Hi. unfold Raw.store.
  destruct (Z.leb_spec 0 i); [|done].
  destruct (Z.ltb_spec i (Z.of_nat (length b))); [lia | done].
Qed.

Lemma take_S_insert b (i : nat) x :
  (i < length b)%nat -> take (S i) (<[i := x]> b) = take i b ++ [x].
Proof.
  intros Hi. rewrite (take_S_r _ _ x).
  - by rewrite take_insert_ge.
  - by apply list_lookup_insert_eq.
Qed.

Lemma copy_loop_spec n : forall src first dst d,
  0 <= first -> first + Z.of_nat n <= Z.of_nat (length src) ->
  0 <= d -> d + Z.of_nat n <= Z.of_nat (length dst) ->
  Raw.copy_loop n src first dst d =
    Some (take (Z.to_nat d) dst ++ take n (drop (Z.to_nat first) src)
            ++ drop (Z.to_nat d + n) dst).
Proof.
  induction n as [|n IH]; intros src first dst d Hf Hs Hd Hdst; simpl.
  - by rewrite Nat.add_0_r, take_drop.
  - destruct (load_Some src first) as (x & -> & Hx); [lia|].
    rewrite store_Some by lia.
    rewrite IH by (rewrite ?length_insert; lia).
    f_equal.
    replace (Z.to_nat (d + 1)) with (S (Z.to_nat d)) by lia.
    replace (Z.to_nat (first + 1)) with (S (Z.to_nat first)) by lia.
    rewrite take_S_insert by lia.
    rewrite (drop_S src x (Z.to_nat first)) by done.
    rewrite drop_insert_lt by lia.
    simpl. rewrite <- app_assoc. simpl.
    by replace (Z.to_nat d + S n)%nat with (S (Z.to_nat d + n)) by lia.
Qed.

Lemma move_loop_spec n : forall b first d,
  0 <= d <= first -> first + Z.of_nat n <= Z.of_nat (length b) ->
  Raw.move_loop n b first d =
    Some (take (Z.to_nat d) b ++ take n (drop (Z.to_nat first) b)
            ++ drop (Z.to_nat d + n) b).
Proof.
  induction n as [|n IH]; intros b first d Hd Hb; simpl.
  - by rewrite Nat.add_0_r, take_drop.
  - destruct (load_Some b first) as (x & -> & Hx); [lia|].
    rewrite store_Some by lia.
    rewrite IH by (rewrite ?length_insert; lia).
    f_equal.
    replace (Z.to_nat (d + 1)) with (S (Z.to_nat d)) by lia.
    replace (Z.to_nat (first + 1)) with (S (Z.to_nat first)) by lia.
    rewrite take_S_insert by lia.
    rewrite (drop_S b x (Z.to_nat first)) by done.
    rewrite !drop_insert_lt by lia.
    simpl. rewrite <- app_assoc. simpl.
    by replace (Z.to_nat d + S n)%nat with (S (Z.to_nat d + n)) by lia.
Qed.

Lemma copy_backward_loop_spec n : forall b last d_last,
  Z.of_nat n <= last <= d_last -> d_last <= Z.of_nat (length b) ->
  Raw.copy_backward_loop n b last d_last =
    Some (take (Z.to_nat d_last - n) b
            ++ take n (drop (Z.to_nat last - n) b)
            ++ drop (Z.to_nat d_last) b).
Proof.
  induction n as [|n IH]; intros b last d_last Hl Hb; simpl.
  - by rewrite Nat.sub_0_r, take_drop.
  - destruct (load_Some b (last - 1)) as (x & -> & Hx); [lia|].
    rewrite store_Some by lia.
    rewrite IH by (rewrite ?length_insert; lia).
    f_equal.
    replace (Z.to_nat (d_last - 1) - n)%nat with (Z.to_nat d_last - S n)%nat by lia.
    replace (Z.to_nat (last - 1) - n)%nat with (Z.to_nat last - S n)%nat by lia.
    rewrite take_insert_ge by lia.
    rewrite drop_insert_ge by lia.
    rewrite take_insert_ge by lia.
    f_equal.
    rewrite (take_S_r (drop _ b) n x).
    2:{ rewrite lookup_drop. rewrite <- Hx. f_equal. lia. }
    rewrite <- app_assoc. f_equal.
    rewrite (drop_S (<[_ := _]> b) x (Z.to_nat (d_last - 1))).
    2:{ apply list_lookup_insert_eq. lia. }
    simpl. f_equal.
    replace (S (Z.to_nat (d_last - 1))) with (Z.to_nat d_last) by lia.
    by rewrite drop_insert_lt by lia.
Qed.

Lemma fill_loop_spec n : forall b first x,
  0 <= first -> first + Z.of_nat n <= Z.of_nat (length b) ->
  Raw.fill_loop n b first x =
    Some (take (Z.to_nat first) b ++ replicate n x
            ++ drop (Z.to_nat first + n) b).
Proof.
  induction n as [|n IH]; intros b first x Hf Hb; simpl.
  - by rewrite Nat.add_0_r, take_drop.
  - rewrite store_Some by lia.
    rewrite IH by (rewrite ?length_insert; lia).
    f_equal.
    replace (Z.to_nat (first + 1)) with (S (Z.to_nat first)) by lia.
    rewrite take_S_insert by lia.
    rewrite drop_insert_lt by lia.
    rewrite <- app_assoc. simpl.
    by replace (Z.to_nat first + S n)%nat with (S (Z.to_nat first + n)) by lia.
Qed.

Lemma copy_spec src first last dst d :
  0 <= first <= last -> last <= Z.of_nat (length src) ->
  0 <= d -> d + (last - first) <= Z.of_nat (length dst) ->
  Raw.copy src first last dst d =
    Some (take (Z.to_nat d) dst
            ++ take (Z.to_nat (last - first)) (drop (Z.to_nat first) src)
            ++ drop (Z.to_nat (d + (last - first))) dst).
Proof.
  intros Hf Hl Hd Hdst. unfold Raw.copy.
  destruct (Z.leb_spec first last); [|lia].
  rewrite copy_loop_spec by lia.
  by replace (Z.to_nat (d + (last - first)))
    with (Z.to_nat d + Z.to_nat (last - first))%nat by lia.
Qed.

Lemma move_within_spec b first last d :
  0 <= d <= first -> first <= last -> last <= Z.of_nat (length b) ->
  Raw.move_within b first last d =
    Some (take (Z.to_nat d) b
            ++ take (Z.to_nat (last - first)) (drop (Z.to_nat first) b)
            ++ drop (Z.to_nat (d + (last - first))) b).
Proof.
  intros Hd Hf Hl. unfold Raw.move_within.
  destruct (Z.leb_spec first last); [|lia].
  rewrite move_loop_spec by lia.
  by replace (Z.to_nat (d + (last - first)))
    with (Z.to_nat d + Z.to_nat (last - first))%nat by lia.
Qed.

Lemma copy_backward_spec b first last d_last :
  0 <= first <= last -> last <= d_last -> d_last <= Z.of_nat (length b) ->
  Raw.copy_backward b first last d_last =
    Some (take (Z.to_nat (d_last - (last - first))) b
            ++ take (Z.to_nat (last - first)) (drop (Z.to_nat first) b)
            ++ drop (Z.to_nat d_last) b).
Proof.
  intros Hf Hl Hd. unfold Raw.copy_backward.
  destruct (Z.leb_spec first last); [|lia].
  rewrite copy_backward_loop_spec by lia.
  replace (Z.to_nat d_last - Z.to_nat (last - first))%nat
    with (Z.to_nat (d_last - (last - first))) by lia.
  by replace (Z.to_nat last - Z.to_nat (last - first))%nat
    with (Z.to_nat first) by lia.
Qed.

Lemma fill_spec b first last x :
  0 <= first <= last -> last <= Z.of_nat (length b) ->
  Raw.fill b first last x =
    Some (take (Z.to_nat first) b ++ replicate (Z.to_nat (last - first)) x
            ++ drop (Z.to_nat last) b).
Proof.
  intros Hf Hl. unfold Raw.fill.
  destruct (Z.leb_spec first last); [|lia].
  rewrite fill_loop_spec by lia.
  by replace (Z.to_nat first + Z.to_nat (last - first))%nat
    with (Z.to_nat last) by lia.
Qed.
End RawFacts.

(** ** Lists of slots after an insertion or a removal *)

Section ListFacts.
Context {T : Type}.
Implicit Types (b : list T) (k n : nat) (x : T).

Lemma insert_take_S b k x :
  (k < length b)%nat -> <[k := x]> (take (S k) b) = take k b ++ [x].
Proof.
  intros Hk. rewrite <- take_insert_lt by lia. by apply take_S_insert.
Qed.

(** The slots after an in-place insertion at [k] among [n] elements. *)
Lemma take_insert_shifted b k n x rest :
  (k <= n < length b)%nat ->
  take (S n) (<[k := x]> (take (S k) b ++ take (n - k) (drop k b) ++ rest)) =
    take k b ++ x :: take (n - k) (drop k b).
Proof.
  intros Hk.
  rewrite insert_app_l by (rewrite length_take; lia).
  rewrite insert_take_S by lia.
  rewrite <- !app_assoc. simpl.
  replace (take k b ++ x :: take (n - k) (drop k b) ++ rest)
    with ((take k b ++ x :: take (n - k) (drop k b)) ++ rest)
    by (by rewrite <- app_assoc).
  apply take_app_length'.
  rewrite length_app, length_take. simpl. rewrite length_take, length_drop. lia.
Qed.

Lemma take_insert_middle (l1 m l2 rest : list T) k n x :
  length l1 = k -> length m = 1%nat -> length l2 = (n - k)%nat -> (k <= n)%nat ->
  take (S n) (<[k := x]> ((l1 ++ m) ++ l2 ++ rest)) = l1 ++ x :: l2.
Proof.
  intros H1 Hm H2 Hk.
  destruct m as [|y [|? ?]]; try discriminate.
  rewrite <- app_assoc. simpl.
  rewrite insert_app_r_alt by lia.
  replace (k - length l1)%nat with 0%nat by lia. simpl.
  replace (l1 ++ x :: l2 ++ rest) with ((l1 ++ x :: l2) ++ rest)
    by (by rewrite <- app_assoc).
  apply take_app_length'. rewrite length_app. simpl. lia.
Qed.

Lemma insert_elements b k n x :
  (k <= n)%nat ->
  take k (take n b) ++ x :: drop k (take n b) =
    take k b ++ x :: take (n - k) (drop k b).
Proof.
  intros Hk. rewrite take_take, skipn_firstn_comm.
  by replace (k `min` n)%nat with k by lia.
Qed.

Lemma erase_elements b k n :
  (k < n)%nat ->
  take k (take n b) ++ drop (S k) (take n b) =
    take k b ++ take (n - S k) (drop (S k) b).
Proof.
  intros Hk. rewrite take_take, skipn_firstn_comm.
  by replace (k `min` n)%nat with k by lia.
Qed.
End ListFacts.

(** ** Running the member functions *)

Lemma length_fresh {T} (f : nat -> T) (n : nat) : length (f <$> seq 0 n) = n.
Proof. by rewrite length_fmap, length_seq. Qed.

(** Unfolding of the monad, one layer of control flow at a time. *)
Ltac unfold_M_once :=
  cbv beta iota zeta delta
    [call construct mbind M_bind mret M_ret get set_items_ set_size_
     set_capacity_ set_slots items_swap items_assign items_at raw assert
     throw fail deref ptr_le ptr_lt ptr_diff ptr_add begin end_ cbegin cend Get
     GetSize GetCapacity];
  cbn [this brk items_ size_ capacity_ addr slots base off andb negb];
  rewrite ?Z.add_0_l, ?Z.sub_0_r, ?Z.eqb_refl.

Ltac unfold_M := do 3 unfold_M_once.

Ltac lengths :=
  repeat first
    [ rewrite length_app | rewrite length_take | rewrite length_drop
    | rewrite length_insert | rewrite length_replicate
    | rewrite length_fresh ];
  cbn [length]; lia.

Section Members.
Context {T : Type} `{Element T} `{Allocator T}.
Implicit Types (v : SimpleVector T) (w : world T) (h : Z) (x item : T).

(** What a fresh buffer of [n] slots at address [a] holds. *)
Local Abbreviation fresh a n := (fresh_slot a <$> seq 0 (Z.to_nat n)).

Lemma limit_bound : 0 <= limit <= SizeT.PTRDIFF_MAX.
Proof. unfold limit. assert (0 <= SizeT.PTRDIFF_MAX) by by compute. lia. Qed.

Lemma ArrayPtr_new_run n w :
  0 < n ->
  ArrayPtr_new n w =
    if n <=? limit
    then Returns {| addr := brk w; slots := fresh (brk w) n |}
                 {| this := this w; brk := brk w + 1 |}
    else Throws bad_alloc w.
Proof.
  intros Hn. unfold ArrayPtr_new, limit.
  destruct (Z.eqb_spec n 0); [lia|].
  destruct (Z.leb_spec n (Z.min heap_limit SizeT.PTRDIFF_MAX)),
    (Z.leb_spec n (Z.max 0 (Z.min heap_limit SizeT.PTRDIFF_MAX)));
    done || lia.
Qed.

Lemma ArrayPtr_new_0 w : ArrayPtr_new 0 w = Returns null w.
Proof. done. Qed.

Lemma elements_length v : Stored v -> length (elements v) = Z.to_nat (size_ v).
Proof. intros Hs. unfold elements, Stored in *. rewrite length_take. lia. Qed.

Lemma Inv_Stored v : Inv v -> Stored v.
Proof. unfold Inv, Stored. lia. Qed.

Lemma Inv_blank : Inv (blank : SimpleVector T).
Proof. pose proof limit_bound. unfold Inv, blank. simpl. lia. Qed.

Lemma PushBack_spec item v h :
  Inv v ->
  match call (PushBack (object item)) v h with
  | Returns _ w' =>
      Inv (this w') /\
      elements (this w') = elements v ++ [item] /\
      size_ (this w') = size_ v + 1 /\
      capacity_ (this w') =
        (if size_ v <? capacity_ v then capacity_ v else grown (capacity_ v))
  | Throws e w' =>
      e = bad_alloc /\ w' = {| this := v; brk := h |} /\
      size_ v = capacity_ v /\ limit < grown (capacity_ v)
  | Faults _ => False
  end.
Proof.
  intros (Hs & Hc & Hl). pose proof limit_bound. pose proof PTRDIFF_MAX_twice.
  unfold PushBack, grown, Inv, elements. unfold_M.
  destruct (Z.ltb_spec (size_ v) (capacity_ v)); unfold_M.
  - rewrite store_Some by lia. unfold_M. rewrite wrap_small by lia.
    repeat split; try (rewrite ?length_insert; lia).
    replace (Z.to_nat (size_ v + 1)) with (S (Z.to_nat (size_ v))) by lia.
    apply take_S_insert. lia.
  - destruct (Z.eqb_spec (capacity_ v) 0) as [Hz|Hz]; unfold_M.
    + rewrite ArrayPtr_new_run by lia.
      destruct (Z.leb_spec 1 limit); [|repeat split; lia]. unfold_M.
      assert (size_ v = 0) as Hsz by lia. rewrite Hsz, Hz.
      rewrite store_Some by (rewrite length_fresh; lia). unfold_M.
      rewrite !wrap_small by lia.
      repeat split; try (simpl; lia).
    + rewrite wrap_small by lia.
      rewrite ArrayPtr_new_run by lia.
      replace (capacity_ v * 2) with (2 * capacity_ v) by lia.
      destruct (Z.leb_spec (2 * capacity_ v) limit); [|repeat split; lia].
      unfold_M.
      rewrite copy_spec by lengths. unfold_M.
      rewrite store_Some by lengths. unfold_M.
      rewrite wrap_small by lia.
      repeat split; try lengths.
      replace (Z.to_nat (size_ v + 1)) with (S (Z.to_nat (size_ v))) by lia.
      simpl. rewrite ?drop_0.
      rewrite take_S_insert by lengths.
      by rewrite take_app_length' by lengths.
Qed.

Lemma Insert_spec x v h k :
  Inv v -> 0 <= k <= size_ v ->
  match call (Insert (ptr_add (begin v) k) (object x)) v h with
  | Returns p w' =>
      Inv (this w') /\
      elements (this w') = take (Z.to_nat k) (elements v) ++ x :: drop (Z.to_nat k) (elements v) /\
      size_ (this w') = size_ v + 1 /\
      capacity_ (this w') =
        (if size_ v <? capacity_ v then capacity_ v else grown (capacity_ v)) /\
      p = ptr_add (begin (this w')) k
  | Throws e w' =>
      e = bad_alloc /\ w' = {| this := v; brk := h |} /\
      size_ v = capacity_ v /\ limit < grown (capacity_ v)
  | Faults _ => False
  end.
Proof.
  intros (Hs & Hc & Hl) Hk. pose proof limit_bound. pose proof PTRDIFF_MAX_twice.
  unfold Insert, grown, Inv, elements. unfold_M.
  destruct (Z.leb_spec 0 k); [|lia].
  destruct (Z.leb_spec k (size_ v)); [|lia]. unfold_M.
  replace (k - 0) with k by lia.
  destruct (Z.eqb_spec (capacity_ v) 0) as [Hz|Hz]; unfold_M.
  - assert (size_ v = 0) as Hsz by lia. assert (k = 0) as -> by lia.
    destruct (Z.ltb_spec (size_ v) (capacity_ v)); [lia|].
    rewrite ArrayPtr_new_run by lia.
    destruct (Z.leb_spec 1 limit); [|repeat split; lia]. unfold_M.
    rewrite store_Some by (rewrite length_fresh; lia). unfold_M.
    rewrite Hsz, Hz. rewrite !wrap_small by lia.
    repeat split; try (simpl; lia).
  - destruct (Z.ltb_spec (size_ v) (capacity_ v)); unfold_M.
    + rewrite copy_backward_spec by lia. unfold_M.
      rewrite store_Some by lengths. unfold_M.
      rewrite wrap_small by lia.
      repeat split; try lengths.
      replace (Z.to_nat (size_ v + 1 - (size_ v - k))) with (S (Z.to_nat k)) by lia.
      replace (Z.to_nat (size_ v + 1)) with (S (Z.to_nat (size_ v))) by lia.
      replace (Z.to_nat (size_ v - k)) with (Z.to_nat (size_ v) - Z.to_nat k)%nat by lia.
      rewrite take_insert_shifted by lia.
      by rewrite insert_elements by lia.
    + rewrite wrap_small by lia.
      rewrite ArrayPtr_new_run by lia.
      replace (capacity_ v * 2) with (2 * capacity_ v) by lia.
      destruct (Z.leb_spec (2 * capacity_ v) limit); [|repeat split; lia].
      unfold_M.
      rewrite copy_spec by lengths. unfold_M.
      rewrite copy_spec by lengths. unfold_M.
      rewrite store_Some by lengths. unfold_M.
      rewrite wrap_small by lia.
      repeat split; try lengths.
      simpl. rewrite !drop_0.
      replace (Z.to_nat (k + 1)) with (Z.to_nat k + 1)%nat by lia.
      replace (Z.to_nat (size_ v + 1)) with (S (Z.to_nat (size_ v))) by lia.
      rewrite take_app_add' by lengths.
      rewrite take_insert_middle by lengths.
      rewrite insert_elements by lia.
      by replace (Z.to_nat (size_ v - k)) with (Z.to_nat (size_ v) - Z.to_nat k)%nat by lia.
Qed.

(** A visible element read through a reference, in any buffer that
    starts with the visible elements. *)
Lemma load_element v (b : list T) p x :
  take (Z.to_nat (size_ v)) b = elements v ->
  0 <= off p < size_ v ->
  Raw.load b (off p) = Some x -> elements v !! Z.to_nat (off p) = Some x.
Proof.
  intros Hb Ho Hx. rewrite load_lookup in Hx by lia.
  rewrite <- Hb. by rewrite lookup_take_lt by lia.
Qed.

Lemma PushBack_ref_spec (r : cref T) v h :
  Inv v ->
  match call (PushBack r) v h with
  | Returns _ w' =>
      Inv (this w') /\
      (exists x, elements (this w') = elements v ++ [x] /\
                 (ref_ok v r -> ref_value v r = Some x)) /\
      size_ (this w') = size_ v + 1 /\
      capacity_ (this w') =
        (if size_ v <? capacity_ v then capacity_ v else grown (capacity_ v))
  | Throws e w' =>
      e = bad_alloc /\ w' = {| this := v; brk := h |} /\
      size_ v = capacity_ v /\ limit < grown (capacity_ v)
  | Faults f =>
      ~ ref_ok v r \/
      (f = dangling_reference /\ size_ v = capacity_ v /\ exists p, r = element p)
  end.
Proof.
  intros Hv. destruct r as [x|p].
  { pose proof (PushBack_spec x v h Hv) as Hp.
    destruct (call (PushBack (object x)) v h) as [[] w'|e w'|f]; [|done..].
    destruct Hp as (? & ? & ? & ?). split; [done|]. split; [|done].
    by exists x. }
  destruct Hv as (Hs & Hc & Hl). pose proof limit_bound. pose proof PTRDIFF_MAX_twice.
  unfold PushBack, grown, Inv, ref_ok, ref_value. unfold_M.
  destruct (Z.ltb_spec (size_ v) (capacity_ v)); unfold_M.
  - destruct (Z.eqb_spec (base p) (addr (items_ v))); unfold_M; [|left; tauto].
    destruct (Raw.load (slots (items_ v)) (off p)) as [x|] eqn:E; unfold_M.
    + rewrite store_Some by lia. unfold_M. rewrite wrap_small by lia.
      split; [repeat split; try (rewrite ?length_insert; lia)|].
      split; [|done]. exists x. split.
      * unfold elements. cbn [items_ size_ slots].
        replace (Z.to_nat (size_ v + 1)) with (S (Z.to_nat (size_ v))) by lia.
        apply take_S_insert. lia.
      * intros (_ & Ho). by eapply load_element.
    + left. intros (_ & Ho).
      destruct (load_Some (slots (items_ v)) (off p)) as (x & Hx & _); [lia|].
      congruence.
  - destruct (Z.eqb_spec (capacity_ v) 0) as [Hz|Hz]; unfold_M.
    + rewrite ArrayPtr_new_run by lia.
      destruct (Z.leb_spec 1 limit); [|repeat split; lia]. unfold_M.
      assert (size_ v = 0) as Hsz by lia.
      destruct (Z.eqb_spec (base p) h); unfold_M; [|left; lia].
      destruct (Raw.load _ (off p)) as [x|] eqn:E; unfold_M; [|left; lia].
      rewrite Hsz, Hz.
      rewrite store_Some by (rewrite length_fresh; lia). unfold_M.
      rewrite !wrap_small by lia.
      split; [repeat split; simpl; lia|]. split; [|done].
      exists x. split; [|lia].
      unfold elements. cbn [items_ size_ slots]. by rewrite Hsz.
    + rewrite wrap_small by lia.
      rewrite ArrayPtr_new_run by lia.
      replace (capacity_ v * 2) with (2 * capacity_ v) by lia.
      destruct (Z.leb_spec (2 * capacity_ v) limit); [|repeat split; lia].
      unfold_M.
      rewrite copy_spec by lengths. unfold_M.
      destruct (Z.eqb_spec (base p) h); unfold_M;
        [|right; split; [done | split; [lia | by exists p]]].
      match goal with |- context [Raw.load ?b (off p)] =>
        assert (take (Z.to_nat (size_ v)) b = elements v) as Hb
      end.
      { simpl. rewrite ?drop_0. by rewrite take_app_length' by lengths. }
      destruct (Raw.load _ (off p)) as [x|] eqn:E; unfold_M.
      * rewrite store_Some by lengths. unfold_M.
        rewrite wrap_small by lia.
        split; [repeat split; lengths|]. split; [|done].
        exists x. split.
        -- unfold elements at 1. cbn [items_ size_ slots].
           replace (Z.to_nat (size_ v + 1)) with (S (Z.to_nat (size_ v))) by lia.
           rewrite take_S_insert by lengths. by rewrite Hb.
        -- intros (_ & Ho). by eapply load_element.
      * left. intros (_ & Ho).
        match type of E with Raw.load ?b _ = None =>
          destruct (load_Some b (off p)) as (x & Hx & _); [lengths|] end.
        congruence.
Qed.

(** A slot read after [std::copy_backward] has shifted the slots from
    [k] to [n] by one. *)
Lemma lookup_shifted (b rest : list T) (k n j : nat) :
  (k <= n < length b)%nat -> (j <= n)%nat ->
  (take (S k) b ++ take (n - k) (drop k b) ++ rest) !! j =
    b !! (if (j <=? k)%nat then j else (j - 1)%nat).
Proof.
  intros Hk Hj. destruct (Nat.leb_spec j k).
  - rewrite lookup_app_l by (rewrite length_take; lia).
    by rewrite lookup_take_lt by lia.
  - rewrite lookup_app_r by (rewrite length_take; lia).
    rewrite length_take.
    rewrite lookup_app_l by (rewrite length_take, length_drop; lia).
    rewrite lookup_take_lt by lia. rewrite lookup_drop. f_equal. lia.
Qed.

Lemma Insert_ref_spec (r : cref T) v h k :
  Inv v -> 0 <= k <= size_ v ->
  match call (Insert (ptr_add (begin v) k) r) v h with
  | Returns p w' =>
      Inv (this w') /\
      (exists x,
         elements (this w') =
           take (Z.to_nat k) (elements v) ++ x :: drop (Z.to_nat k) (elements v) /\
         (ref_ok v r -> inserted v k r = Some x)) /\
      size_ (this w') = size_ v + 1 /\
      capacity_ (this w') =
        (if size_ v <? capacity_ v then capacity_ v else grown (capacity_ v)) /\
      p = ptr_add (begin (this w')) k
  | Throws e w' =>
      e = bad_alloc /\ w' = {| this := v; brk := h |} /\
      size_ v = capacity_ v /\ limit < grown (capacity_ v)
  | Faults f => ~ ref_ok v r
  end.
Proof.
  intros Hv Hk. destruct r as [x|p].
  { pose proof (Insert_spec x v h k Hv Hk) as Hp.
    destruct (call (Insert _ (object x)) v h) as [q w'|e w'|f]; [|done..].
    destruct Hp as (? & ? & ? & ? & ?). split; [done|]. split; [|done].
    by exists x. }
  destruct Hv as (Hs & Hc & Hl). pose proof limit_bound. pose proof PTRDIFF_MAX_twice.
  unfold Insert, grown, Inv, ref_ok, inserted. unfold_M.
  destruct (Z.leb_spec 0 k); [|lia].
  destruct (Z.leb_spec k (size_ v)); [|lia]. unfold_M.
  replace (k - 0) with k by lia.
  destruct (Z.eqb_spec (capacity_ v) 0) as [Hz|Hz]; unfold_M.
  - assert (size_ v = 0) as Hsz by lia. assert (k = 0) as -> by lia.
    destruct (Z.ltb_spec (size_ v) (capacity_ v)); [lia|].
    rewrite ArrayPtr_new_run by lia.
    destruct (Z.leb_spec 1 limit); [|repeat split; lia]. unfold_M.
    destruct (base p =? addr (items_ v)); unfold_M.
    { destruct (Raw.load _ (off p)) as [x|] eqn:E; unfold_M; [|lia].
      unfold Raw.load in E. destruct (0 <=? off p); [|done].
      apply lookup_lt_Some in E. lia. }
    destruct (base p =? h); unfold_M; [|lia].
    destruct (Raw.load _ (off p)) as [x|] eqn:E; unfold_M; [|lia].
    rewrite store_Some by (rewrite length_fresh; lia). unfold_M.
    rewrite Hsz, Hz. rewrite !wrap_small by lia.
    split; [repeat split; simpl; lia|]. split; [|done].
    exists x. split; [|lia].
    unfold elements. cbn [items_ size_ slots]. by rewrite Hsz.
  - destruct (Z.ltb_spec (size_ v) (capacity_ v)); unfold_M.
    + rewrite copy_backward_spec by lia. unfold_M.
      destruct (Z.eqb_spec (base p) (addr (items_ v))); unfold_M; [|tauto].
      replace (Z.to_nat (size_ v + 1 - (size_ v - k))) with (S (Z.to_nat k)) by lia.
      replace (Z.to_nat (size_ v - k)) with (Z.to_nat (size_ v) - Z.to_nat k)%nat by lia.
      destruct (Raw.load _ (off p)) as [x|] eqn:E; unfold_M.
      * rewrite store_Some by lengths. unfold_M.
        rewrite wrap_small by lia.
        split; [repeat split; lengths|]. split; [|done].
        exists x. split.
        -- unfold elements. cbn [items_ size_ slots].
           replace (Z.to_nat (size_ v + 1)) with (S (Z.to_nat (size_ v))) by lia.
           rewrite take_insert_shifted by lia.
           by rewrite insert_elements by lia.
        -- intros (_ & Ho). rewrite load_lookup in E by lia.
           rewrite lookup_shifted in E by lia.
           unfold elements, before_shift. rewrite lookup_take_lt.
           ++ rewrite <- E. f_equal.
              destruct (Nat.leb_spec (Z.to_nat (off p)) (Z.to_nat k)),
                (Z.leb_spec (off p) k); lia.
           ++ destruct (Z.leb_spec (off p) k); lia.
      * intros (_ & Ho).
        match type of E with Raw.load ?b _ = None =>
          destruct (load_Some b (off p)) as (x & Hx & _); [lengths|] end.
        congruence.
    + rewrite wrap_small by lia.
      rewrite ArrayPtr_new_run by lia.
      replace (capacity_ v * 2) with (2 * capacity_ v) by lia.
      destruct (Z.leb_spec (2 * capacity_ v) limit); [|repeat split; lia].
      unfold_M.
      rewrite copy_spec by lengths. unfold_M.
      rewrite copy_spec by lengths. unfold_M.
      destruct (Z.eqb_spec (base p) (addr (items_ v)));
        [|destruct (Z.eqb_spec (base p) h); unfold_M; [|tauto]];
        (destruct (Raw.load _ (off p)) as [x|] eqn:E; unfold_M).
      all: try rewrite store_Some by lengths; unfold_M.
      2: { intros (_ & Ho).
           destruct (load_Some (slots (items_ v)) (off p)) as (x & Hx & _);
             [lia | congruence]. }
      3: tauto.
      all: rewrite wrap_small by lia;
        (split; [repeat split; lengths|]); (split; [|done]);
        exists x; (split; [|first [tauto | intros (_ & Ho); by eapply load_element]]).
      all: unfold elements; cbn [items_ size_ slots];
        simpl; rewrite !drop_0;
        replace (Z.to_nat (k + 1)) with (Z.to_nat k + 1)%nat by lia;
        replace (Z.to_nat (size_ v + 1)) with (S (Z.to_nat (size_ v))) by lia;
        rewrite take_app_add' by lengths;
        rewrite take_insert_middle by lengths;
        rewrite insert_elements by lia;
        by replace (Z.to_nat (size_ v - k)) with (Z.to_nat (size_ v) - Z.to_nat k)%nat by lia.
Qed.

Lemma Erase_spec v h k :
  Inv v -> 0 <= k < size_ v ->
  match call (Erase (ptr_add (begin v) k)) v h with
  | Returns p w' =>
      Inv (this w') /\
      elements (this w') =
        take (Z.to_nat k) (elements v) ++ drop (S (Z.to_nat k)) (elements v) /\
      size_ (this w') = size_ v - 1 /\
      capacity_ (this w') = capacity_ v /\
      p = ptr_add (begin (this w')) k /\
      brk w' = h
  | _ => False
  end.
Proof.
  intros (Hs & Hc & Hl) Hk. pose proof limit_bound. pose proof PTRDIFF_MAX_twice.
  unfold Erase, Inv, elements. unfold_M.
  destruct (Z.leb_spec 0 k); [|lia].
  destruct (Z.ltb_spec k (size_ v)); [|lia]. unfold_M.
  rewrite move_within_spec by lia. unfold_M.
  rewrite wrap_small by lia.
  repeat split; try lengths.
  replace (Z.to_nat (k + 1)) with (S (Z.to_nat k)) by lia.
  replace (Z.to_nat (size_ v - (k + 1)))
    with (Z.to_nat (size_ v) - S (Z.to_nat k))%nat by lia.
  rewrite erase_elements by lia.
  rewrite app_assoc. apply take_app_length'. lengths.
Qed.

Lemma Resize_spec v h n :
  Inv v -> 0 <= n ->
  match call (Resize n) v h with
  | Returns _ w' =>
      Inv (this w') /\
      size_ (this w') = n /\
      elements (this w') =
        (if n <=? size_ v then take (Z.to_nat n) (elements v)
         else elements v ++ replicate (Z.to_nat (n - size_ v)) value_init) /\
      capacity_ (this w') =
        (if n <=? capacity_ v then capacity_ v else Z.max n (2 * capacity_ v))
  | Throws e w' =>
      e = bad_alloc /\ w' = {| this := v; brk := h |} /\
      capacity_ v < n /\ limit < Z.max n (2 * capacity_ v)
  | Faults _ => False
  end.
Proof.
  intros (Hs & Hc & Hl) Hn. pose proof limit_bound. pose proof PTRDIFF_MAX_twice.
  unfold Resize, Inv, elements. unfold_M.
  destruct (Z.leb_spec n (size_ v)); unfold_M.
  - destruct (Z.leb_spec n (capacity_ v)); [|lia].
    repeat split; try lia.
    rewrite take_take. f_equal. lia.
  - destruct (Z.leb_spec n (capacity_ v)); unfold_M.
    + rewrite fill_spec by lia. unfold_M.
      repeat split; try lengths.
      rewrite app_assoc. apply take_app_length'. lengths.
    + rewrite wrap_small by lia.
      replace (capacity_ v * 2) with (2 * capacity_ v) by lia.
      destruct (Z.ltb_spec (2 * capacity_ v) n); unfold_M.
      * rewrite ArrayPtr_new_run by lia.
        destruct (Z.leb_spec n limit); [|repeat split; lia]. unfold_M.
        rewrite copy_spec by lengths. unfold_M.
        rewrite fill_spec by lengths. unfold_M.
        repeat split; try lengths.
        simpl. rewrite !drop_0.
        rewrite (take_app_length' (take _ (slots _)) _ (Z.to_nat (size_ v))) by lengths.
        rewrite app_assoc. apply take_app_length'. lengths.
      * rewrite ArrayPtr_new_run by lia.
        destruct (Z.leb_spec (2 * capacity_ v) limit); [|repeat split; lia]. unfold_M.
        rewrite copy_spec by lengths. unfold_M.
        rewrite fill_spec by lengths. unfold_M.
        repeat split; try lengths.
        simpl. rewrite !drop_0.
        rewrite (take_app_length' (take _ (slots _)) _ (Z.to_nat (size_ v))) by lengths.
        rewrite app_assoc. apply take_app_length'. lengths.
Qed.

Lemma Reserve_spec v h n :
  Inv v -> 0 <= n ->
  match call (Reserve n) v h with
  | Returns _ w' =>
      Inv (this w') /\
      size_ (this w') = size_ v /\
      elements (this w') = elements v /\
      capacity_ (this w') = Z.max (capacity_ v) n
  | Throws e w' =>
      e = bad_alloc /\ w' = {| this := v; brk := h |} /\
      capacity_ v < n /\ limit < n
  | Faults _ => False
  end.
Proof.
  intros (Hs & Hc & Hl) Hn. pose proof limit_bound.
  unfold Reserve, Inv, elements. unfold_M.
  destruct (Z.ltb_spec (capacity_ v) n); unfold_M.
  - rewrite ArrayPtr_new_run by lia.
    destruct (Z.leb_spec n limit); [|repeat split; lia]. unfold_M.
    rewrite copy_spec by lengths. unfold_M.
    repeat split; try lengths.
    simpl. rewrite !drop_0. apply take_app_length'. lengths.
  - repeat split; lia.
Qed.

Lemma PopBack_spec v h :
  Inv v ->
  match call PopBack v h with
  | Returns _ w' =>
      Inv (this w') /\
      size_ (this w') = Z.max 0 (size_ v - 1) /\
      elements (this w') = take (Z.to_nat (size_ v - 1)) (elements v) /\
      capacity_ (this w') = capacity_ v /\
      brk w' = h
  | _ => False
  end.
Proof.
  intros (Hs & Hc & Hl). pose proof limit_bound. pose proof PTRDIFF_MAX_twice.
  unfold PopBack, Inv, elements. unfold_M.
  destruct (Z.ltb_spec 0 (size_ v)); unfold_M.
  - rewrite wrap_small by lia. repeat split; try lia.
    rewrite take_take. f_equal. lia.
  - repeat split; try lia.
    rewrite take_take. f_equal. lia.
Qed.

Lemma Clear_spec v h :
  Inv v ->
  match call Clear v h with
  | Returns _ w' =>
      Inv (this w') /\ size_ (this w') = 0 /\ elements (this w') = [] /\
      capacity_ (this w') = capacity_ v /\ brk w' = h
  | _ => False
  end.
Proof.
  intros (Hs & Hc & Hl). unfold Clear, Inv, elements. unfold_M.
  repeat split; lia.
Qed.

Lemma SimpleVector_size_value_spec n x h :
  0 <= n ->
  match construct (SimpleVector_size_value n x) h with
  | Returns _ w' =>
      Inv (this w') /\ size_ (this w') = n /\ capacity_ (this w') = n /\
      elements (this w') = replicate (Z.to_nat n) x
  | Throws e w' => e = bad_alloc /\ limit < n
  | Faults _ => False
  end.
Proof.
  intros Hn. pose proof limit_bound.
  unfold SimpleVector_size_value, Inv, elements, blank. unfold_M.
  destruct (Z.eq_dec n 0) as [->|Hz].
  - rewrite ArrayPtr_new_0. unfold null. unfold_M.
    rewrite fill_spec by (simpl; lia). unfold_M. simpl.
    repeat split; lia.
  - rewrite ArrayPtr_new_run by lia.
    destruct (Z.leb_spec n limit); [|split; [done | lia]]. unfold_M.
    rewrite fill_spec by lengths. unfold_M.
    repeat split; try lengths.
    simpl. apply take_app_length'. lengths.
Qed.

Lemma SimpleVector_size_spec n h :
  0 <= n ->
  match construct (SimpleVector_size n) h with
  | Returns _ w' =>
      Inv (this w') /\ size_ (this w') = n /\ capacity_ (this w') = n /\
      elements (this w') = replicate (Z.to_nat n) value_init
  | Throws e w' => e = bad_alloc /\ limit < n
  | Faults _ => False
  end.
Proof. apply SimpleVector_size_value_spec. Qed.

Lemma SimpleVector_init_spec (init : list T) h :
  match construct (SimpleVector_init init) h with
  | Returns _ w' =>
      Inv (this w') /\ size_ (this w') = Z.of_nat (length init) /\
      capacity_ (this w') = Z.of_nat (length init) /\
      elements (this w') = init
  | Throws e w' => e = bad_alloc /\ limit < Z.of_nat (length init)
  | Faults _ => False
  end.
Proof.
  pose proof limit_bound.
  unfold SimpleVector_init, Inv, elements, blank. unfold_M.
  destruct (Z.eq_dec (Z.of_nat (length init)) 0) as [Hz|Hz].
  - rewrite Hz. rewrite ArrayPtr_new_0. unfold null. unfold_M.
    rewrite copy_spec by (simpl; lia). unfold_M. simpl.
    destruct init; [|discriminate]. repeat split; simpl; lia.
  - rewrite ArrayPtr_new_run by lia.
    destruct (Z.leb_spec (Z.of_nat (length init)) limit); [|split; [done | lia]].
    unfold_M.
    rewrite copy_spec by lengths. unfold_M.
    repeat split; try lengths.
    simpl. rewrite !drop_0, Nat2Z.id.
    rewrite firstn_all. by apply take_app_length'.
Qed.

(** The copy constructor: the elements arrive in a buffer of their own,
    the capacity field is left at zero. *)
Lemma SimpleVector_copy_spec v h :
  Inv v ->
  exists s,
    construct (SimpleVector_copy v) h =
      Returns tt {| this := {| items_ := {| addr := if capacity_ v =? 0 then 0 else h;
                                            slots := s |};
                               size_ := size_ v; capacity_ := 0 |};
                    brk := if capacity_ v =? 0 then h else h + 1 |} /\
    length s = length (slots (items_ v)) /\
    take (Z.to_nat (size_ v)) s = elements v.
Proof.
  intros (Hs & Hc & Hl). pose proof limit_bound.
  unfold SimpleVector_copy, elements, blank. unfold_M.
  destruct (Z.eqb_spec (capacity_ v) 0) as [Hz|Hz].
  - rewrite Hz, ArrayPtr_new_0. unfold null. unfold_M.
    assert (size_ v = 0) as Hsz by lia. rewrite Hsz.
    rewrite copy_spec by (simpl; lia). unfold_M. simpl.
    eexists. split; [done|]. split; [simpl; lia | by rewrite take_0].
  - rewrite ArrayPtr_new_run by lia.
    destruct (Z.leb_spec (capacity_ v) limit); [|lia]. unfold_M.
    rewrite copy_spec by lengths. unfold_M.
    eexists. split; [done|]. split; [lengths|].
    simpl. rewrite !drop_0. apply take_app_length'. lengths.
Qed.

Lemma swap_run v (other : SimpleVector T) h :
  call (swap other) v h = Returns v {| this := other; brk := h |}.
Proof. unfold swap. unfold_M. by destruct v, other. Qed.

Lemma SimpleVector_move_run (other : SimpleVector T) h :
  construct (SimpleVector_move other) h =
    Returns blank {| this := other; brk := h |}.
Proof. unfold SimpleVector_move, construct. apply swap_run. Qed.
End Members.

(** ** The relational operators *)

Section Comparisons.
Context {T : Type} `{Element T}.
Implicit Types (b xs ys : list T) (v lhs rhs : SimpleVector T).

Lemma take_drop_cons b (f : Z) (n : nat) :
  0 <= f -> f + Z.of_nat (S n) <= Z.of_nat (length b) ->
  exists x, Raw.load b f = Some x /\
    take (S n) (drop (Z.to_nat f) b) = x :: take n (drop (Z.to_nat (f + 1)) b).
Proof.
  intros Hf Hb.
  destruct (load_Some b f) as (x & Hl & Hx); [lia|].
  exists x. split; [done|].
  rewrite (drop_S b x (Z.to_nat f)) by done. simpl.
  by replace (Z.to_nat (f + 1)) with (S (Z.to_nat f)) by lia.
Qed.

Lemma equal_loop_spec (n : nat) : forall b1 f1 b2 f2,
  0 <= f1 -> f1 + Z.of_nat n <= Z.of_nat (length b1) ->
  0 <= f2 -> f2 + Z.of_nat n <= Z.of_nat (length b2) ->
  Raw.equal_loop elem_eq n b1 f1 b2 f2 =
    Some (all_eqb (take n (drop (Z.to_nat f1) b1))
                  (take n (drop (Z.to_nat f2) b2))).
Proof.
  induction n as [|n IH]; intros b1 f1 b2 f2 H1 Hb1 H2 Hb2; [done|].
  destruct (take_drop_cons b1 f1 n) as (x & Hx & ->); [lia..|].
  destruct (take_drop_cons b2 f2 n) as (y & Hy & ->); [lia..|].
  cbn [Raw.equal_loop all_eqb]. rewrite Hx, Hy.
  destruct (elem_eq x y); [|done].
  apply IH; lia.
Qed.

Lemma lexicographical_compare_loop_spec (n1 : nat) : forall n2 b1 f1 b2 f2,
  0 <= f1 -> f1 + Z.of_nat n1 <= Z.of_nat (length b1) ->
  0 <= f2 -> f2 + Z.of_nat n2 <= Z.of_nat (length b2) ->
  Raw.lexicographical_compare_loop elem_lt n1 n2 b1 f1 b2 f2 =
    Some (lex_ltb (take n1 (drop (Z.to_nat f1) b1))
                  (take n2 (drop (Z.to_nat f2) b2))).
Proof.
  induction n1 as [|n1 IH]; intros [|n2] b1 f1 b2 f2 H1 Hb1 H2 Hb2.
  - done.
  - destruct (take_drop_cons b2 f2 n2) as (y & Hy & ->); [lia..|]. done.
  - destruct (take_drop_cons b1 f1 n1) as (x & Hx & ->); [lia..|]. done.
  - destruct (take_drop_cons b1 f1 n1) as (x & Hx & ->); [lia..|].
    destruct (take_drop_cons b2 f2 n2) as (y & Hy & ->); [lia..|].
    cbn [Raw.lexicographical_compare_loop lex_ltb]. rewrite Hx, Hy.
    destruct (elem_lt x y); [done|].
    destruct (elem_lt y x); [done|].
    apply IH; lia.
Qed.

Lemma all_eqb_PairwiseEq xs : forall ys,
  all_eqb xs ys = true <-> PairwiseEq xs ys.
Proof.
  unfold PairwiseEq.
  induction xs as [|x xs IH]; intros [|y ys]; simpl;
    try (split; [intros _ i ? ? Hx Hy; by destruct i | done]).
  split.
  - intros Hxy. destruct (elem_eq x y) eqn:E; [|done].
    intros [|i] x' y' Hx Hy; simpl in *.
    + by simplify_eq.
    + by eapply IH.
  - intros Hall. rewrite (Hall 0%nat x y) by done.
    apply IH. intros i x' y' Hx Hy. by apply (Hall (S i)).
Qed.

Lemma lex_ltb_LexLess xs : forall ys,
  lex_ltb xs ys = true <-> LexLess xs ys.
Proof.
  unfold LexLess.
  induction xs as [|x xs IH]; intros [|y ys]; simpl.
  - split; [done|]. intros (k & _ & _ & _ & [[_ Hk] | (x & y & Hx & _)]);
      [lia | done].
  - split; [|done]. intros _. exists 0%nat.
    repeat split; lia.
  - split; [done|]. intros (k & _ & _ & Hk & [[-> _] | (x' & y & _ & Hy & _)]);
      [lia | by destruct k].
  - split.
    + destruct (elem_lt x y) eqn:Exy.
      { intros _. exists 0%nat. repeat split; try lia. right. by exists x, y. }
      destruct (elem_lt y x) eqn:Eyx; [done|].
      intros (k & Hagree & Hk1 & Hk2 & Hend)%IH.
      exists (S k). split; [|split; [lia | split; [lia|]]].
      * intros [|i] x' y' Hi Hx Hy; simpl in *.
        -- by simplify_eq.
        -- apply (Hagree i); [lia | done..].
      * destruct Hend as [[-> Hlt] | (x' & y' & Hx & Hy & Hlt)].
        -- left. lia.
        -- right. by exists x', y'.
    + intros (k & Hagree & Hk1 & Hk2 & Hend).
      destruct k as [|k].
      * destruct Hend as [[Hk _] | (x' & y' & Hx & Hy & Hlt)]; [lia|].
        simpl in *. simplify_eq. by rewrite Hlt.
      * destruct (Hagree 0%nat x y) as [-> ->]; [lia | done..|].
        apply IH. exists k. split; [|split; [lia | split; [lia|]]].
        -- intros i x' y' Hi Hx Hy. apply (Hagree (S i)); [lia | done..].
        -- destruct Hend as [[Hk Hlt] | (x' & y' & Hx & Hy & Hlt)].
           ++ left. lia.
           ++ right. by exists x', y'.
Qed.

Lemma operator_eq_run lhs rhs :
  Stored lhs -> Stored rhs ->
  operator_eq lhs rhs =
    Some (if size_ lhs =? size_ rhs
          then all_eqb (elements lhs) (elements rhs) else false).
Proof.
  intros Hl Hr. unfold operator_eq, Raw.equal, elements, Stored in *. unfold_M.
  destruct (Z.eqb_spec (size_ lhs) (size_ rhs)) as [Heq|Hne]; [|done].
  simpl. destruct (Z.leb_spec 0 (size_ lhs)); [|lia].
  rewrite equal_loop_spec by lia. simpl. rewrite !drop_0. by rewrite Heq.
Qed.

Lemma operator_lt_run lhs rhs :
  Stored lhs -> Stored rhs ->
  operator_lt lhs rhs = Some (lex_ltb (elements lhs) (elements rhs)).
Proof.
  intros Hl Hr.
  unfold operator_lt, Raw.lexicographical_compare, elements, Stored in *.
  unfold_M.
  destruct (Z.leb_spec 0 (size_ lhs)); [|lia].
  destruct (Z.leb_spec 0 (size_ rhs)); [|lia]. simpl.
  rewrite lexicographical_compare_loop_spec by lia. simpl. by rewrite !drop_0.
Qed.
End Comparisons.

(** ** Element access and repeated appends *)

Section Access.
Context {T : Type} `{Element T} `{Allocator T}.
Implicit Types (v : SimpleVector T) (w : world T) (h : Z) (x item : T).

Lemma items_at_run v h i x :
  Stored v -> 0 <= i < size_ v -> elements v !! Z.to_nat i = Some x ->
  call (items_at i) v h = Returns x {| this := v; brk := h |}.
Proof.
  intros Hs Hi Hx. unfold elements in Hx.
  rewrite lookup_take_lt in Hx by lia.
  unfold_M. by rewrite load_lookup, Hx by lia.
Qed.

Lemma subscript_At v h i :
  i < size_ v -> call (subscript i) v h = call (At i) v h.
Proof.
  intros Hi. unfold subscript, At. unfold_M.
  destruct (Z.ltb_spec i (size_ v)); [|lia].
  destruct (Z.leb_spec (size_ v) i); [lia|]. by unfold_M.
Qed.

Lemma At_run v h i x :
  Stored v -> 0 <= i < size_ v -> elements v !! Z.to_nat i = Some x ->
  call (At i) v h = Returns x {| this := v; brk := h |}.
Proof.
  intros Hs Hi Hx. unfold At. unfold_M.
  destruct (Z.leb_spec (size_ v) i); [lia|].
  by apply items_at_run.
Qed.

Lemma At_out_of_range v h i :
  size_ v <= i ->
  call (At i) v h =
    Throws (out_of_range "Index is out of range") {| this := v; brk := h |}.
Proof.
  intros Hi. unfold At. unfold_M.
  destruct (Z.leb_spec (size_ v) i); [done | lia].
Qed.

Lemma PushBack_all_spec (xs : list T) : forall v h,
  Inv v ->
  match call (PushBack_all xs) v h with
  | Returns _ w' =>
      Inv (this w') /\
      elements (this w') = elements v ++ xs /\
      size_ (this w') = size_ v + Z.of_nat (length xs)
  | Throws e w' =>
      e = bad_alloc /\ limit < 2 * (size_ v + Z.of_nat (length xs))
  | Faults _ => False
  end.
Proof.
  induction xs as [|x xs IH]; intros v h Hv.
  - unfold_M. simpl. rewrite app_nil_r. split; [done | split; [done | lia]].
  - pose proof (PushBack_spec x v h Hv) as Hp.
    change (call (PushBack_all (x :: xs)) v h)
      with (match call (PushBack (object x)) v h with
            | Returns _ w' => PushBack_all xs w'
            | Throws e w' => Throws e w'
            | Faults f => Faults f
            end).
    destruct (call (PushBack (object x)) v h) as [[] [v1 h1]|e w1|f]; [| |done].
    + cbn [this] in Hp. destruct Hp as (Hv1 & He & Hs & _).
      specialize (IH v1 h1 Hv1). unfold call in IH.
      destruct (PushBack_all xs _) as [[] w2|e w2|f]; [| |done].
      * destruct IH as (Hv2 & He2 & Hs2).
        rewrite He2, He, Hs2, Hs, <- app_assoc. cbn [length].
        split; [done | split; [done | lia]].
      * destruct IH as (-> & Hl). split; [done|]. cbn [length]. lia.
    + destruct Hp as (-> & _ & Hfull & Hl). split; [done|].
      destruct Hv as (? & ? & ?).
      unfold grown in Hl. cbn [length].
      destruct (Z.eqb_spec (capacity_ v) 0); lia.
Qed.
End Access.

(** ** The state invariant along every path that avoids the copy constructor *)

Section Reachability.
Context {T : Type} `{Element T} `{Allocator T}.
Implicit Types (v : SimpleVector T) (w : world T) (h : Z) (x item : T).

Lemma Insert_outside v h k (r : cref T) :
  ~ (0 <= k <= size_ v) ->
  call (Insert (ptr_add (begin v) k) r) v h = Faults assertion_failed.
Proof.
  intros Hk. unfold Insert. unfold_M.
  destruct (Z.leb_spec 0 k), (Z.leb_spec k (size_ v)); done || lia.
Qed.

Lemma Erase_outside v h k :
  ~ (0 <= k < size_ v) ->
  call (Erase (ptr_add (begin v) k)) v h = Faults assertion_failed.
Proof.
  intros Hk. unfold Erase. unfold_M.
  destruct (Z.leb_spec 0 k), (Z.ltb_spec k (size_ v)); done || lia.
Qed.

Lemma run_method_Inv m v h :
  Inv v -> method_args m ->
  match call (run_method m) v h with
  | Returns _ w' | Throws _ w' => Inv (this w')
  | Faults _ => True
  end.
Proof.
  intros Hv Hm. destruct m as [item| |k value|k| |n|n]; cbn [run_method method_args] in *.
  - pose proof (PushBack_ref_spec item v h Hv) as Hp.
    destruct (call (PushBack item) v h) as [[] w'|e w'|f]; [| |done].
    + apply Hp.
    + by destruct Hp as (_ & -> & _).
  - pose proof (PopBack_spec v h Hv) as Hp.
    destruct (call PopBack v h) as [[] w'|e w'|f]; [|done..]. apply Hp.
  - change (call (b ← get begin; Insert (ptr_add b k) value;; mret tt) v h)
      with (match call (Insert (ptr_add (begin v) k) value) v h with
            | Returns _ w' => Returns tt w'
            | Throws e w' => Throws e w'
            | Faults f => Faults f
            end).
    destruct (decide (0 <= k <= size_ v)) as [Hk|Hk].
    + pose proof (Insert_ref_spec value v h k Hv Hk) as Hp.
      destruct (call (Insert _ value) v h) as [p w'|e w'|f]; [| |done].
      * apply Hp.
      * by destruct Hp as (_ & -> & _).
    + by rewrite Insert_outside.
  - change (call (b ← get begin; Erase (ptr_add b k);; mret tt) v h)
      with (match call (Erase (ptr_add (begin v) k)) v h with
            | Returns _ w' => Returns tt w'
            | Throws e w' => Throws e w'
            | Faults f => Faults f
            end).
    destruct (decide (0 <= k < size_ v)) as [Hk|Hk].
    + pose proof (Erase_spec v h k Hv Hk) as Hp.
      destruct (call (Erase _) v h) as [p w'|e w'|f]; [|done..]. apply Hp.
    + by rewrite Erase_outside.
  - pose proof (Clear_spec v h Hv) as Hp.
    destruct (call Clear v h) as [[] w'|e w'|f]; [|done..]. apply Hp.
  - pose proof (Reserve_spec v h n Hv Hm) as Hp.
    destruct (call (Reserve n) v h) as [[] w'|e w'|f]; [| |done].
    + apply Hp.
    + by destruct Hp as (_ & -> & _).
  - pose proof (Resize_spec v h n Hv Hm) as Hp.
    destruct (call (Resize n) v h) as [[] w'|e w'|f]; [| |done].
    + apply Hp.
    + by destruct Hp as (_ & -> & _).
Qed.

Lemma run_ctor_Inv c h w :
  ctor_args c -> construct (run_ctor c) h = Returns tt w -> Inv (this w).
Proof.
  intros Hc Hrun. destruct c as [|n|n x|init|n]; cbn [run_ctor ctor_args] in *.
  - injection Hrun as <-. apply Inv_blank.
  - pose proof (SimpleVector_size_spec n h Hc) as Hp. rewrite Hrun in Hp. apply Hp.
  - pose proof (SimpleVector_size_value_spec n x h Hc) as Hp.
    rewrite Hrun in Hp. apply Hp.
  - pose proof (SimpleVector_init_spec init h) as Hp. rewrite Hrun in Hp. apply Hp.
  - pose proof (Reserve_spec blank h n Inv_blank Hc) as Hp.
    unfold construct, SimpleVector_reserve, call in *.
    cbn [ReserveProxyObj.GetCapacity ReserveProxyObj.Reserve ReserveProxyObj.capacity_] in Hrun.
    rewrite Hrun in Hp. apply Hp.
Qed.

Theorem Built_Inv v : Built v -> Inv v.
Proof.
  induction 1 as [c h w Hc Hrun | m v h w' _ IH Hm Hrun | m v h e w' _ IH Hm Hrun
                 | other h source w' _ IH Hrun | other h source w' _ IH Hrun
                 | v other h other' w' _ IHv _ IHo Hrun
                 | v other h other' w' _ IHv _ IHo Hrun].
  - by eapply run_ctor_Inv.
  - pose proof (run_method_Inv m v h IH Hm) as Hp. by rewrite Hrun in Hp.
  - pose proof (run_method_Inv m v h IH Hm) as Hp. by rewrite Hrun in Hp.
  - rewrite SimpleVector_move_run in Hrun. by injection Hrun as <- <-.
  - rewrite SimpleVector_move_run in Hrun. injection Hrun as <- <-. apply Inv_blank.
  - rewrite swap_run in Hrun. by injection Hrun as <- <-.
  - rewrite swap_run in Hrun. by injection Hrun as <- <-.
Qed.

(** The copy of a non-empty vector is outside the invariant. *)
Lemma copy_of_nonempty_outside_Inv v h w :
  Inv v -> 0 < size_ v ->
  construct (SimpleVector_copy v) h = Returns tt w ->
  ~ (GetSize (this w) <= GetCapacity (this w)).
Proof.
  intros Hv Hs Hrun.
  destruct (SimpleVector_copy_spec v h Hv) as (s & Hc & _).
  rewrite Hc in Hrun. injection Hrun as <-.
  unfold GetSize, GetCapacity. cbn [this size_ capacity_]. lia.
Qed.
End Reachability.

(** * The specification's properties *)

Section Claims.
Context {T : Type} `{Element T} `{Allocator T}.
Implicit Types (v : SimpleVector T) (w : world T) (h : Z) (x item : T).



(** X27. On a vector inside the state invariant (every vector built
    without the copy constructor), [Erase] on the cursor returned by
    [Insert(begin() + k, x)], for [0 <= k <= GetSize()], restores the
    element sequence: same size, same elements in order, whether [x] is
    an object of its own or a visible element of the vector. The only
    other outcome is the out-of-memory error of a growth step in
    [Insert], which leaves the vector as it was. *)
Theorem Insert_Erase_round_trip (x : cref T) v h k :
  Inv v -> 0 <= k <= GetSize v -> ref_ok v x ->
  match call (b ← get begin; p ← Insert (ptr_add b k) x; Erase p) v h with
  | Returns q w' =>
      elements (this w') = elements v /\
      GetSize (this w') = GetSize v /\
      q = ptr_add (begin (this w')) k
  | Throws e w' =>
      e = bad_alloc /\ w' = {| this := v; brk := h |} /\
      GetSize v = GetCapacity v /\ limit < grown (GetCapacity v)
  | Faults _ => False
  end.
Proof.
  intros Hv Hk Hx. unfold GetSize, GetCapacity in *.
  pose proof (Insert_ref_spec x v h k Hv Hk) as Hi.
  change (call (b ← get begin; p ← Insert (ptr_add b k) x; Erase p) v h)
    with (match call (Insert (ptr_add (begin v) k) x) v h with
          | Returns p w' => Erase p w'
          | Throws e w' => Throws e w'
          | Faults f => Faults f
          end).
  destruct (call (Insert _ x) v h) as [p [v1 h1]|e w1|f]; [|done..].
  cbn [this] in Hi. destruct Hi as (Hv1 & (y & He & _) & Hs & _ & ->).
  pose proof (Erase_spec v1 h1 k Hv1 ltac:(lia)) as Hr. unfold call in Hr.
  destruct (Erase _ _) as [q w2|e w2|f]; [|done..].
  destruct Hr as (_ & He2 & Hs2 & _ & -> & _).
  split; [|split; [lia | done]].
  rewrite He2, He.
  assert (length (take (Z.to_nat k) (elements v)) = Z.to_nat k) as Hlen.
  { rewrite length_take, elements_length by by apply Inv_Stored. lia. }
  rewrite take_app_length' by done.
  rewrite (cons_middle y), app_assoc.
  rewrite drop_app_length' by (rewrite length_app; simpl; lia).
  apply take_drop.
Qed.

(** C5. [At(index)] throws [std::out_of_range] when [index >= GetSize()],
    leaving the vector as it was, and only then: for [index < GetSize()]
    it does what [operator[]] does and throws nothing, returning the
    element at [index] of the visible sequence. In particular
    [At(GetSize())] always throws, also on an empty vector. *)
Theorem At_checked v h index :
  (GetSize v <= index ->
     call (At index) v h =
       Throws (out_of_range "Index is out of range") {| this := v; brk := h |}) /\
  (index < GetSize v ->
     call (At index) v h = call (subscript index) v h /\
     forall e w, call (At index) v h <> Throws e w) /\
  (Stored v -> 0 <= index < GetSize v ->
     exists x, elements v !! Z.to_nat index = Some x /\
       call (At index) v h = Returns x {| this := v; brk := h |}) /\
  call (At (GetSize v)) v h =
    Throws (out_of_range "Index is out of range") {| this := v; brk := h |}.
Proof.
  unfold GetSize. split; [|split; [|split]].
  - apply At_out_of_range.
  - intros Hi. split; [symmetry; by apply subscript_At|].
    unfold At. unfold_M.
    destruct (Z.leb_spec (size_ v) index); [lia|]. unfold_M.
    by destruct (Raw.load _ _).
  - intros Hs Hi.
    destruct (lookup_lt_is_Some_2 (elements v) (Z.to_nat index)) as [x Hx].
    { rewrite elements_length by done. lia. }
    exists x. split; [done|]. by apply At_run.
  - apply At_out_of_range. lia.
Qed.

(** X28. On a vector inside the state invariant (every vector built
    without the copy constructor), [Resize(new_size)] with [new_size]
    above the capacity [c] of a
    vector of size [s] sets the capacity to [max(new_size, 2c)] and the
    size to [new_size], keeps the first [s] elements in order and fills
    the positions from [s] to [new_size] with [Type{}]; it throws the
    out-of-memory error, leaving the vector as it was, only if the
    allocator does not grant that many slots. *)
Theorem Resize_beyond_capacity v h new_size :
  Inv v -> GetCapacity v < new_size ->
  match call (Resize new_size) v h with
  | Returns _ w' =>
      GetCapacity (this w') = Z.max new_size (2 * GetCapacity v) /\
      GetSize (this w') = new_size /\
      elements (this w') =
        elements v ++ replicate (Z.to_nat (new_size - GetSize v)) value_init
  | Throws e w' =>
      e = bad_alloc /\ w' = {| this := v; brk := h |} /\
      limit < Z.max new_size (2 * GetCapacity v)
  | Faults _ => False
  end.
Proof.
  intros Hv Hn. unfold GetSize, GetCapacity in *.
  assert (0 <= new_size) as H0n by (destruct Hv as (? & ? & ?); lia).
  pose proof (Resize_spec v h new_size Hv H0n) as Hr.
  destruct (call (Resize new_size) v h) as [[] w'|e w'|f]; [| |done].
  - destruct Hr as (_ & Hs & He & Hc).
    destruct Hv as (? & ? & ?).
    destruct (Z.leb_spec new_size (size_ v)); [lia|].
    destruct (Z.leb_spec new_size (capacity_ v)); [lia|]. done.
  - destruct Hr as (? & ? & ? & ?). done.
Qed.

(** C7, amended. For [n < GetSize()], [Resize(n)] leaves the buffer and
    the capacity as they were and sets the size to [n]; that is the state
    reached by [GetSize() - n] calls of [PopBack()] (not by [n] calls). *)
Theorem Resize_truncates_like_PopBack v h n :
  0 <= n < GetSize v -> GetSize v < SizeT.modulus ->
  call (Resize n) v h =
    Returns tt {| this := {| items_ := items_ v; size_ := n;
                             capacity_ := capacity_ v |}; brk := h |} /\
  call (PopBack_times (Z.to_nat (GetSize v - n))) v h = call (Resize n) v h.
Proof.
  unfold GetSize. intros Hn Hm.
  assert (call (Resize n) v h =
    Returns tt {| this := {| items_ := items_ v; size_ := n;
                             capacity_ := capacity_ v |}; brk := h |}) as Hr.
  { unfold Resize. unfold_M. destruct (Z.leb_spec n (size_ v)); [done | lia]. }
  split; [done|]. rewrite Hr. clear Hr.
  remember (Z.to_nat (size_ v - n)) as k eqn:Hk.
  revert v Hn Hm Hk. induction k as [|k IH]; intros v Hn Hm Hk; [lia|].
  cbn [PopBack_times]. unfold PopBack at 1. unfold_M.
  destruct (Z.ltb_spec 0 (size_ v)); [|lia]. unfold_M.
  rewrite wrap_small by lia.
  destruct (Z.eq_dec (size_ v - 1) n) as [Heq|Hne].
  - assert (k = 0%nat) as -> by lia. cbn [PopBack_times]. unfold_M. by rewrite Heq.
  - specialize (IH {| items_ := items_ v; size_ := size_ v - 1;
                      capacity_ := capacity_ v |}).
    cbn [items_ size_ capacity_] in IH. unfold call in IH. apply IH; lia.
Qed.

(** C9. Move construction leaves the source with [GetSize() == 0] and
    the new vector with the buffer, the size and the capacity the source
    had, hence with the same elements in the same order; nothing is
    allocated. It holds for every source, empty or not. *)
Theorem move_constructor (other : SimpleVector T) h :
  exists source w',
    construct (SimpleVector_move other) h = Returns source w' /\
    GetSize source = 0 /\
    this w' = other /\
    elements (this w') = elements other /\
    GetSize (this w') = GetSize other /\
    GetCapacity (this w') = GetCapacity other /\
    brk w' = h.
Proof.
  exists blank, {| this := other; brk := h |}.
  by rewrite SimpleVector_move_run.
Qed.

(** X29. The copy of a vector [v] inside the state invariant (every
    vector built without the copy constructor), whose buffer was
    allocated before the copy is made, has
    the size of [v] and its elements in order, in a buffer of as many
    slots as [v]'s capacity that is allocated afresh when that capacity
    is not zero; but its [GetCapacity()] is 0, whatever the capacity of
    [v]. *)
Theorem copy_constructor v h :
  Inv v -> Allocated h v ->
  exists w',
    construct (SimpleVector_copy v) h = Returns tt w' /\
    GetSize (this w') = GetSize v /\
    elements (this w') = elements v /\
    GetCapacity (this w') = 0 /\
    length (slots (items_ (this w'))) = length (slots (items_ v)) /\
    (0 < GetCapacity v ->
       addr (items_ (this w')) = h /\
       addr (items_ (this w')) <> addr (items_ v) /\
       brk w' = h + 1).
Proof.
  intros Hv (Hh & Ha).
  destruct (SimpleVector_copy_spec v h Hv) as (s & Hrun & Hlen & He).
  eexists. split; [exact Hrun|]. cbn [this items_ size_ capacity_ addr slots brk].
  unfold GetSize, GetCapacity, elements. cbn [this items_ size_ capacity_ addr slots brk].
  do 4 (split; [done|]).
  intros Hc. destruct (Z.eqb_spec (capacity_ v) 0); [lia|].
  repeat split; lia.
Qed.
End Claims.

Section RelationalClaim.
Context {T : Type} `{Element T}.

Lemma relational_general (lhs rhs : SimpleVector T) :
  Stored lhs -> Stored rhs ->
  exists eq lt : bool,
    operator_eq lhs rhs = Some eq /\
    operator_lt lhs rhs = Some lt /\
    (eq = true <->
       GetSize lhs = GetSize rhs /\ PairwiseEq (elements lhs) (elements rhs)) /\
    (lt = true <-> LexLess (elements lhs) (elements rhs)) /\
    operator_ne lhs rhs = Some (negb eq) /\
    operator_le lhs rhs = Some (lt || eq) /\
    operator_gt lhs rhs = operator_lt rhs lhs /\
    operator_ge lhs rhs = Some (negb lt).
Proof.
  intros Hl Hr.
  exists (if size_ lhs =? size_ rhs
          then all_eqb (elements lhs) (elements rhs) else false),
         (lex_ltb (elements lhs) (elements rhs)).
  pose proof (operator_eq_run lhs rhs Hl Hr) as He.
  pose proof (operator_lt_run lhs rhs Hl Hr) as Hlt.
  split; [done|]. split; [done|]. split; [|split; [apply lex_ltb_LexLess|]].
  - unfold GetSize. destruct (Z.eqb_spec (size_ lhs) (size_ rhs)).
    + rewrite all_eqb_PairwiseEq. tauto.
    + split; [done | tauto].
  - unfold operator_ne, operator_le, operator_gt, operator_ge.
    rewrite He, Hlt. repeat split.
    by destruct (lex_ltb _ _).
Qed.
End RelationalClaim.

(** ** Concrete runs *)

Example v123_constructed :
  construct (SimpleVector_init [1; 2; 3]) 1 = Returns tt {| this := v123; brk := 2 |}.
Proof. reflexivity. Qed.

Lemma Inv_v123 : Inv v123.
Proof. repeat split; by vm_compute. Defined.

Lemma Inv_v124 : Inv v124.
Proof. repeat split; by vm_compute. Defined.

Lemma Stored_v123 : Stored v123.
Proof. split; by vm_compute. Defined.

Lemma Stored_v124 : Stored v124.
Proof. split; by vm_compute. Defined.

(** C8. On vectors whose elements lie in their buffers, [==] is true
    exactly when the sizes are equal and the elements are pairwise equal
    in order, [<] is true exactly when the left sequence is
    lexicographically less than the right one by the elements' [<], and
    [!=], [<=], [>], [>=] are [!(==)], [(<) || (==)], [<] with the sides
    exchanged, and [!(<)]. In particular [{1,2,3} < {1,2,4}] and
    [{1,2} < {1,2,3}]. *)
Theorem relational_operators :
  (forall (T : Type) (E : Element T) (lhs rhs : SimpleVector T),
     Stored lhs -> Stored rhs ->
     exists eq lt : bool,
       operator_eq lhs rhs = Some eq /\
       operator_lt lhs rhs = Some lt /\
       (eq = true <->
          GetSize lhs = GetSize rhs /\
          PairwiseEq (elements lhs) (elements rhs)) /\
       (lt = true <-> LexLess (elements lhs) (elements rhs)) /\
       operator_ne lhs rhs = Some (negb eq) /\
       operator_le lhs rhs = Some (lt || eq) /\
       operator_gt lhs rhs = operator_lt rhs lhs /\
       operator_ge lhs rhs = Some (negb lt)) /\
  (forall (A : Allocator Z) h1 h2 w1 w2,
     construct (SimpleVector_init [1; 2; 3]) h1 = Returns tt w1 ->
     construct (SimpleVector_init [1; 2; 4]) h2 = Returns tt w2 ->
     operator_lt (this w1) (this w2) = Some true) /\
  (forall (A : Allocator Z) h1 h2 w1 w2,
     construct (SimpleVector_init [1; 2]) h1 = Returns tt w1 ->
     construct (SimpleVector_init [1; 2; 3]) h2 = Returns tt w2 ->
     operator_lt (this w1) (this w2) = Some true).
Proof.
  split; [intros T E; apply relational_general|].
  split; intros A h1 h2 w1 w2 H1 H2.
  - pose proof (SimpleVector_init_spec [1; 2; 3] h1) as S1.
    pose proof (SimpleVector_init_spec [1; 2; 4] h2) as S2.
    rewrite H1 in S1. rewrite H2 in S2.
    destruct S1 as (I1 & _ & _ & E1), S2 as (I2 & _ & _ & E2).
    rewrite operator_lt_run by by apply Inv_Stored.
    by rewrite E1, E2.
  - pose proof (SimpleVector_init_spec [1; 2] h1) as S1.
    pose proof (SimpleVector_init_spec [1; 2; 3] h2) as S2.
    rewrite H1 in S1. rewrite H2 in S2.
    destruct S1 as (I1 & _ & _ & E1), S2 as (I2 & _ & _ & E2).
    rewrite operator_lt_run by by apply Inv_Stored.
    by rewrite E1, E2.
Qed.

(** The operators on [{1, 2, 3}] and [{1, 2, 4}]. *)
Lemma relational_operators_witness :
  Stored v123 /\ Stored v124 /\
  exists eq lt : bool,
    operator_eq v123 v124 = Some eq /\
    operator_lt v123 v124 = Some lt /\
    (eq = true <->
       GetSize v123 = GetSize v124 /\
       PairwiseEq (elements v123) (elements v124)) /\
    (lt = true <-> LexLess (elements v123) (elements v124)) /\
    operator_ne v123 v124 = Some (negb eq) /\
    operator_le v123 v124 = Some (lt || eq) /\
    operator_gt v123 v124 = operator_lt v124 v123 /\
    operator_ge v123 v124 = Some (negb lt).
Proof.
  pose proof Stored_v123 as H1.
  pose proof Stored_v124 as H2.
  split; [exact H1|]. split; [exact H2|].
  exact (proj1 relational_operators Z int_element v123 v124 H1 H2).
Defined.

(** C1, at the input where the code departs from it. The list
    constructor builds [{1, 2, 3}] with size 3 and capacity 3, inside the
    invariant; its copy has the three elements and size 3, but capacity
    0, so [GetSize() <= GetCapacity()] does not hold for it. *)
Theorem copy_constructor_leaves_capacity_zero :
  construct (SimpleVector_init [1; 2; 3]) 1 =
    Returns tt {| this := v123; brk := 2 |} /\
  Inv v123 /\
  construct (SimpleVector_copy v123) 2 =
    Returns tt {| this := copy_of_v123; brk := 3 |} /\
  elements copy_of_v123 = [1; 2; 3] /\
  GetSize copy_of_v123 = 3 /\
  GetCapacity copy_of_v123 = 0 /\
  ~ (0 <= GetSize copy_of_v123 <= GetCapacity copy_of_v123).
Proof.
  split; [by vm_compute|]. split; [exact Inv_v123|].
  split; [by vm_compute|]. do 3 (split; [by vm_compute|]).
  unfold GetSize, GetCapacity, copy_of_v123. simpl. lia.
Qed.

(** C2, at an input where the code departs from it:
    [SimpleVector<int> a; a.PushBack(5); a.PushBack(a[0]);]. The first
    call leaves [{5}] with capacity 1, in the buffer at address 1, and
    [a[0]] refers to slot 0 of that buffer. The second call finds the
    vector full and takes the growth step, which moves the element to a
    new buffer and releases the old one where its block ends; only then
    is [item] read, through a reference into the released buffer. The two
    values pushed are 5 and 5, and the claim wants [GetSize() == 2] with
    both elements 5. *)
Theorem PushBack_reads_item_after_release :
  construct (SimpleVector_default;; PushBack (object 5)) 1 =
    Returns tt {| this := v5; brk := 2 |} /\
  call (subscript_ref 0) v5 2 = Returns v5_0 {| this := v5; brk := 2 |} /\
  call (subscript 0) v5 2 = Returns 5 {| this := v5; brk := 2 |} /\
  call (PushBack v5_0) v5 2 = Faults dangling_reference /\
  construct (SimpleVector_default;; PushBack (object 5);;
             item ← subscript_ref 0; PushBack item) 1 =
    Faults dangling_reference.
Proof. do 4 (split; [by vm_compute|]). by vm_compute. Qed.

(** C3, at an input where the code departs from it: [PushBack(4)] on the
    copy of [{1, 2, 3}]. The copy has size 3 and capacity 0 (the defect
    of C1), so [PushBack] takes the growth step for capacity 0, which
    replaces the buffer by one of a single slot and sets the capacity to
    1, and then assigns to slot 3 of that buffer: a store outside the
    buffer, after which the size would be 4 with capacity 1. *)
Theorem PushBack_on_copy_of_v123 :
  construct (SimpleVector_copy v123) 2 =
    Returns tt {| this := copy_of_v123; brk := 3 |} /\
  GetSize copy_of_v123 = 3 /\ GetCapacity copy_of_v123 = 0 /\
  call (PushBack (object 4)) copy_of_v123 3 = Faults out_of_bounds.
Proof. do 3 (split; [by vm_compute|]). by vm_compute. Qed.

(** C4, at an input where the code departs from it: on the copy of
    [{1, 2, 3}], [Insert(begin() + 3, 9)] and [Erase] on the cursor it
    returns. The copy has capacity 0 (the defect of C1), so [Insert]
    takes the branch for capacity 0, which replaces the buffer by one of
    a single slot holding 9; after [Erase] the size is 3 again but the
    buffer has one slot, with 9 in it: the elements 1, 2, 3 are gone. *)
Theorem Insert_Erase_on_copy_of_v123 :
  construct (SimpleVector_copy v123) 2 =
    Returns tt {| this := copy_of_v123; brk := 3 |} /\
  elements copy_of_v123 = [1; 2; 3] /\
  0 <= 3 <= GetSize copy_of_v123 /\
  call (b ← get begin; p ← Insert (ptr_add b 3) (object 9); Erase p)
       copy_of_v123 3 =
    Returns {| base := 3; off := 3 |}
      {| this := {| items_ := {| addr := 3; slots := [9] |};
                    size_ := 3; capacity_ := 1 |};
         brk := 4 |} /\
  elements {| items_ := {| addr := 3; slots := [9] |};
              size_ := 3; capacity_ := 1 |} <> elements copy_of_v123.
Proof. do 4 (split; [by vm_compute|]). by vm_compute. Qed.

(** C6, at an input where the code departs from it: [Resize(2)] on the
    copy of [{1, 2, 3}]. The copy has size 3 and capacity 0 (the defect
    of C1), so 2 is above the capacity; but [Resize] tests the size
    first and truncates: the capacity stays 0, not [max(2, 2 * 0) = 2],
    and only two of the three elements remain visible. *)
Theorem Resize_on_copy_of_v123 :
  construct (SimpleVector_copy v123) 2 =
    Returns tt {| this := copy_of_v123; brk := 3 |} /\
  GetCapacity copy_of_v123 < 2 /\
  call (Resize 2) copy_of_v123 3 =
    Returns tt {| this := {| items_ := items_ copy_of_v123;
                             size_ := 2; capacity_ := 0 |};
                  brk := 3 |} /\
  GetCapacity {| items_ := items_ copy_of_v123; size_ := 2; capacity_ := 0 |}
    <> Z.max 2 (2 * GetCapacity copy_of_v123) /\
  elements {| items_ := items_ copy_of_v123; size_ := 2; capacity_ := 0 |}
    = [1; 2].
Proof. do 4 (split; [by vm_compute|]). by vm_compute. Qed.

(** C10, at an input where the code departs from it: the copy of the
    copy of [{1, 2, 3}]. The first copy has size 3 and capacity 0 (the
    defect of C1); the copy constructor allocates as many slots as its
    source's capacity, none here, and then copies the three elements to
    the null pointer it got: no vector with the same size and contents
    is made. *)
Theorem copy_of_copy_of_v123 :
  construct (SimpleVector_copy v123) 2 =
    Returns tt {| this := copy_of_v123; brk := 3 |} /\
  GetSize copy_of_v123 = 3 /\ GetCapacity copy_of_v123 = 0 /\
  construct (SimpleVector_copy copy_of_v123) 3 = Faults out_of_bounds.
Proof. do 3 (split; [by vm_compute|]). by vm_compute. Qed.

(** C7 as stated fails: on [{1, 2, 3}], [Resize(1)] leaves [{1}] while
    one call of [PopBack()] leaves [{1, 2}]. *)
Lemma Resize_is_not_n_PopBacks :
  Inv v123 /\ 0 <= 1 < GetSize v123 /\
  exists w1 w2,
    call (Resize 1) v123 2 = Returns tt w1 /\
    call (PopBack_times 1) v123 2 = Returns tt w2 /\
    elements (this w1) = [1] /\
    elements (this w2) = [1; 2] /\
    elements (this w1) <> elements (this w2).
Proof.
  split; [exact Inv_v123|]. split; [by vm_compute|].
  exists {| this := {| items_ := items_ v123; size_ := 1; capacity_ := 3 |}; brk := 2 |},
         {| this := {| items_ := items_ v123; size_ := 2; capacity_ := 3 |}; brk := 2 |}.
  do 4 (split; [by vm_compute|]). by vm_compute.
Qed.



(** Inserting 9 at position 1 of [{1, 2, 3}] and erasing it again. *)
Lemma Insert_Erase_round_trip_witness :
  Inv v123 /\ 0 <= 1 <= GetSize v123 /\ ref_ok v123 (object 9) /\
  exists q w',
    call (b ← get begin; p ← Insert (ptr_add b 1) (object 9); Erase p) v123 2 =
      Returns q w' /\
    elements (this w') = [1; 2; 3] /\
    GetSize (this w') = 3.
Proof.
  assert (0 <= 1 <= GetSize v123) as Hk by (split; by vm_compute).
  split; [exact Inv_v123|]. split; [exact Hk|]. split; [exact I|].
  pose proof (Insert_Erase_round_trip (object 9) v123 2 1 Inv_v123 Hk I) as Hp.
  destruct (call _ v123 2) as [q w'|e w'|f].
  - exists q, w'. split; [reflexivity|].
    destruct Hp as (He & Hs & _). split; [exact He | exact Hs].
  - destruct Hp as (_ & _ & _ & Hl). by vm_compute in Hl.
  - destruct Hp.
Defined.

(** [At(3)] and [At(1)] on [{1, 2, 3}]. *)
Lemma At_checked_witness :
  (GetSize v123 <= 3 /\
   call (At 3) v123 2 =
     Throws (out_of_range "Index is out of range") {| this := v123; brk := 2 |}) /\
  (Stored v123 /\ 0 <= 1 < GetSize v123 /\
   exists x, elements v123 !! Z.to_nat 1 = Some x /\
     call (At 1) v123 2 = Returns x {| this := v123; brk := 2 |}) /\
  (1 < GetSize v123 /\ call (At 1) v123 2 = call (subscript 1) v123 2).
Proof.
  assert (GetSize v123 <= 3) as H3 by by vm_compute.
  assert (0 <= 1 < GetSize v123) as H1 by (split; by vm_compute).
  split; [split; [exact H3 | exact (proj1 (At_checked v123 2 3) H3)]|].
  split.
  - split; [exact Stored_v123|]. split; [exact H1|].
    exact (proj1 (proj2 (proj2 (At_checked v123 2 1))) Stored_v123 H1).
  - split; [exact (proj2 H1)|].
    exact (proj1 (proj1 (proj2 (At_checked v123 2 1)) (proj2 H1))).
Defined.

(** [Resize(5)] on [{1, 2, 3}]: capacity [max(5, 6)]. *)
Lemma Resize_beyond_capacity_witness :
  Inv v123 /\ GetCapacity v123 < 5 /\
  exists w',
    call (Resize 5) v123 2 = Returns tt w' /\
    GetCapacity (this w') = 6 /\
    GetSize (this w') = 5 /\
    elements (this w') = [1; 2; 3; 0; 0].
Proof.
  assert (GetCapacity v123 < 5) as Hc by by vm_compute.
  split; [exact Inv_v123|]. split; [exact Hc|].
  pose proof (Resize_beyond_capacity v123 2 5 Inv_v123 Hc) as Hp.
  destruct (call (Resize 5) v123 2) as [[] w'|e w'|f].
  - exists w'. split; [reflexivity|]. exact Hp.
  - destruct Hp as (_ & _ & Hl). by vm_compute in Hl.
  - destruct Hp.
Defined.

(** [Resize(1)] on [{1, 2, 3}] is two calls of [PopBack()]. *)
Lemma Resize_truncates_like_PopBack_witness :
  0 <= 1 < GetSize v123 /\ GetSize v123 < SizeT.modulus /\
  call (PopBack_times 2) v123 2 = call (Resize 1) v123 2.
Proof.
  assert (0 <= 1 < GetSize v123) as Hn by (split; by vm_compute).
  assert (GetSize v123 < SizeT.modulus) as Hm by by vm_compute.
  split; [exact Hn|]. split; [exact Hm|].
  exact (proj2 (Resize_truncates_like_PopBack v123 2 1 Hn Hm)).
Defined.

(** The copy of [{1, 2, 3}]. *)
Lemma copy_constructor_witness :
  Inv v123 /\ Allocated 2 v123 /\
  exists w',
    construct (SimpleVector_copy v123) 2 = Returns tt w' /\
    GetSize (this w') = 3 /\
    GetCapacity (this w') = 0 /\
    addr (items_ (this w')) <> addr (items_ v123).
Proof.
  assert (Allocated 2 v123) as Ha by (repeat split; by vm_compute).
  split; [exact Inv_v123|]. split; [exact Ha|].
  destruct (copy_constructor v123 2 Inv_v123 Ha)
    as (w' & Hrun & Hs & _ & Hc & _ & Hfresh).
  exists w'. split; [exact Hrun|]. split; [exact Hs|]. split; [exact Hc|].
  assert (0 < GetCapacity v123) as Hpos by by vm_compute.
  exact (proj1 (proj2 (Hfresh Hpos))).
Defined.

(** * Further properties of the header *)

(** ** Outcomes of the member functions *)

Section Outcomes.
Context {T : Type} `{Element T} `{Allocator T}.
Implicit Types (v : SimpleVector T) (w : world T) (h : Z) (x item : T).

Lemma bind_call {A B} (m : M T A) (f : A -> M T B) v h :
  call (a ← m; f a) v h =
    match call m v h with
    | Returns a w' => f a w'
    | Throws e w' => Throws e w'
    | Faults x => Faults x
    end.
Proof. done. Qed.

(** X1. Every vector reached through the constructors other than the
    copy constructor and through [PushBack], [PopBack], [Insert],
    [Erase], [Clear], [Reserve], [Resize], [swap] and moves has
    [0 <= GetSize() <= GetCapacity()], its capacity is the number of
    slots of its buffer, and its size the number of visible elements. *)
Theorem Built_size_le_capacity v :
  Built v ->
  0 <= GetSize v <= GetCapacity v /\
  GetCapacity v = Z.of_nat (length (slots (items_ v))) /\
  GetSize v = Z.of_nat (length (elements v)).
Proof.
  intros Hb. pose proof (Built_Inv v Hb) as Hv.
  pose proof (elements_length v (Inv_Stored v Hv)) as Hlen.
  destruct Hv as (Hs & Hc & _). unfold GetSize, GetCapacity.
  split; [done|]. split; [done | lia].
Qed.


Lemma PushBack_fits item v h :
  Inv v -> size_ v < capacity_ v ->
  call (PushBack (object item)) v h =
    Returns tt {| this := {| items_ := {| addr := addr (items_ v);
                                          slots := <[Z.to_nat (size_ v) := item]> (slots (items_ v)) |};
                             size_ := size_ v + 1; capacity_ := capacity_ v |};
                  brk := h |}.
Proof.
  intros (Hs & Hc & Hl) Hfit. pose proof limit_bound. pose proof PTRDIFF_MAX_twice.
  unfold PushBack. unfold_M.
  destruct (Z.ltb_spec (size_ v) (capacity_ v)); [|lia]. unfold_M.
  rewrite store_Some by lia. unfold_M. by rewrite wrap_small by lia.
Qed.

(** X3. A call that needs no growth step ([PushBack] or [Insert] with a
    free slot, [Reserve] or [Resize] within the capacity, [PopBack],
    [Erase], [Clear]) never throws, allocates nothing and keeps the buffer
    and the capacity: cursors into the vector stay in the same buffer.
    It fails only on a cursor out of range or on an argument that refers
    into the vector's storage but to no visible element. *)
Theorem no_reallocation_when_it_fits m v h :
  Inv v -> method_args m -> fits m v ->
  match call (run_method m) v h with
  | Returns _ w' =>
      addr (items_ (this w')) = addr (items_ v) /\
      capacity_ (this w') = capacity_ v /\ brk w' = h
  | Throws _ _ => False
  | Faults f => (f = assertion_failed /\ ~ cursor_args m v) \/ ~ ref_args m v
  end.
Proof.
  intros Hv Hm Hfit. pose proof Hv as (Hs & Hc & Hl).
  pose proof limit_bound. pose proof PTRDIFF_MAX_twice.
  destruct m as [item| |k value|k| |n|n];
    cbn [run_method method_args fits cursor_args ref_args ref_ok] in *.
  - destruct item as [x|p]; [by rewrite PushBack_fits|]. cbn [ref_ok].
    unfold PushBack. unfold_M.
    destruct (Z.ltb_spec (size_ v) (capacity_ v)); [|lia]. unfold_M.
    destruct (Z.eqb_spec (base p) (addr (items_ v))); unfold_M; [|right; tauto].
    destruct (Raw.load _ (off p)) as [x|] eqn:E; unfold_M.
    + rewrite store_Some by lia. by unfold_M.
    + right. intros (_ & Ho).
      destruct (load_Some (slots (items_ v)) (off p)) as (x & Hx & _);
        [lia | congruence].
  - unfold PopBack. unfold_M. destruct (0 <? size_ v); by unfold_M.
  - unfold Insert. unfold_M.
    destruct (Z.leb_spec 0 k); [|left; split; [done | lia]].
    destruct (Z.leb_spec k (size_ v)); [|left; split; [done | lia]]. unfold_M.
    destruct (Z.eqb_spec (capacity_ v) 0); [lia|]. unfold_M.
    destruct (Z.ltb_spec (size_ v) (capacity_ v)); [|lia]. unfold_M.
    replace (k - 0) with k by lia.
    rewrite copy_backward_spec by lia. unfold_M.
    destruct value as [x|p]; cbn [ref_ok]; unfold_M.
    + rewrite store_Some by lengths. by unfold_M.
    + destruct (Z.eqb_spec (base p) (addr (items_ v))); unfold_M; [|right; tauto].
      destruct (Raw.load _ (off p)) as [x|] eqn:E; unfold_M.
      * rewrite store_Some by lengths. by unfold_M.
      * right. intros (_ & Ho).
        match type of E with Raw.load ?b _ = None =>
          destruct (load_Some b (off p)) as (x & Hx & _); [lengths | congruence]
        end.
  - unfold Erase. unfold_M.
    destruct (Z.leb_spec 0 k); [|left; split; [done | lia]].
    destruct (Z.ltb_spec k (size_ v)); [|left; split; [done | lia]]. unfold_M.
    rewrite move_within_spec by lia. by unfold_M.
  - unfold Clear. by unfold_M.
  - unfold Reserve. unfold_M.
    destruct (Z.ltb_spec (capacity_ v) n); [lia|]. by unfold_M.
  - unfold Resize. unfold_M.
    destruct (Z.leb_spec n (size_ v)); unfold_M; [done|].
    destruct (Z.leb_spec n (capacity_ v)); [|lia]. unfold_M.
    rewrite fill_spec by lia. by unfold_M.
Qed.

(** X4. Appending values that fit into the capacity, as after a
    [Reserve], appends them in order without any allocation: the buffer,
    the capacity and the allocator stay as they were. *)
Theorem PushBack_all_within_capacity (xs : list T) : forall v h,
  Inv v -> size_ v + Z.of_nat (length xs) <= capacity_ v ->
  match call (PushBack_all xs) v h with
  | Returns _ w' =>
      elements (this w') = elements v ++ xs /\
      addr (items_ (this w')) = addr (items_ v) /\
      capacity_ (this w') = capacity_ v /\ brk w' = h
  | _ => False
  end.
Proof.
  induction xs as [|x xs IH]; intros v h Hv Hfit.
  - unfold_M. cbn [PushBack_all]. unfold_M. by rewrite app_nil_r.
  - cbn [length] in Hfit.
    pose proof (PushBack_spec x v h Hv) as Hp.
    change (call (PushBack_all (x :: xs)) v h)
      with (match call (PushBack (object x)) v h with
            | Returns _ w' => PushBack_all xs w'
            | Throws e w' => Throws e w'
            | Faults f => Faults f
            end).
    rewrite PushBack_fits in * by (done || lia).
    cbn [this] in Hp. destruct Hp as (Hv1 & He & _).
    match goal with |- context [PushBack_all xs {| this := ?v1; brk := _ |}] =>
      specialize (IH v1 h Hv1) end.
    cbn [size_ capacity_ items_ addr] in IH. unfold call in IH.
    specialize (IH ltac:(lia)).
    destruct (PushBack_all xs _) as [[] w2|e w2|f]; [|done..].
    destruct IH as (He2 & ? & ? & ?).
    rewrite He2, He, <- app_assoc. done.
Qed.

Lemma PushBack_tight x v h w' :
  Inv v -> tight v \/ (size_ v = 0 /\ capacity_ v = 0) ->
  call (PushBack (object x)) v h = Returns tt w' -> tight (this w').
Proof.
  intros Hv Ht Hrun. pose proof (PushBack_spec x v h Hv) as Hp.
  rewrite Hrun in Hp. destruct Hp as (_ & _ & Hs & Hc).
  destruct Hv as (Hsc & _ & _). unfold tight, grown in *. rewrite Hs, Hc.
  destruct (Z.ltb_spec (size_ v) (capacity_ v)).
  - destruct Ht as [[? Hk] | ?]; [|lia]. split; [lia | done].
  - destruct (Z.eqb_spec (capacity_ v) 0) as [Hz|Hz].
    + split; [lia | by exists 0%nat].
    + destruct Ht as [[? [k Hk]] | ?]; [|lia]. split; [lia|].
      exists (S k). rewrite Nat2Z.inj_succ, Z.pow_succ_r by lia. lia.
Qed.

Lemma PushBack_all_tight (xs : list T) : forall v h w',
  Inv v -> tight v \/ (size_ v = 0 /\ capacity_ v = 0) -> xs <> [] ->
  call (PushBack_all xs) v h = Returns tt w' -> tight (this w').
Proof.
  induction xs as [|x xs IH]; intros v h w' Hv Ht Hne Hrun; [done|].
  pose proof (PushBack_spec x v h Hv) as Hp.
  change (call (PushBack_all (x :: xs)) v h)
    with (match call (PushBack (object x)) v h with
          | Returns _ w' => PushBack_all xs w'
          | Throws e w' => Throws e w'
          | Faults f => Faults f
          end) in Hrun.
  destruct (call (PushBack (object x)) v h) as [[] [v1 h1]|e w1|f] eqn:E; [|done..].
  cbn [this] in Hp. destruct Hp as (Hv1 & _).
  pose proof (PushBack_tight x v h _ Hv Ht E) as Ht1. cbn [this] in Ht1.
  destruct xs as [|y ys].
  - cbn [PushBack_all] in Hrun. unfold_M. by injection Hrun as <-.
  - by apply (IH v1 h1 w' Hv1 (or_introl Ht1)).
Qed.

(** X5. After pushing at least one value into a default-constructed
    vector the capacity is a power of two, at least the size and less
    than twice the size. *)
Theorem growth_is_tight (xs : list T) h w :
  xs <> [] ->
  construct (SimpleVector_default;; PushBack_all xs) h = Returns tt w ->
  GetSize (this w) <= GetCapacity (this w) < 2 * GetSize (this w) /\
  exists k : nat, GetCapacity (this w) = 2 ^ Z.of_nat k.
Proof.
  intros Hne Hrun.
  change (construct (SimpleVector_default;; PushBack_all xs) h)
    with (call (PushBack_all xs) blank h) in Hrun.
  pose proof (PushBack_all_spec xs blank h Inv_blank) as Hp.
  rewrite Hrun in Hp. destruct Hp as ((Hs & _) & _).
  destruct (PushBack_all_tight xs blank h w Inv_blank) as (Ht & Hk);
    [right; by split | done..|].
  unfold GetSize, GetCapacity. split; [lia | done].
Qed.
End Outcomes.

(** ** Appending, inserting and removing *)

Section Editing.
Context {T : Type} `{Element T} `{Allocator T}.
Implicit Types (v : SimpleVector T) (w : world T) (h : Z) (x item : T).

(** X6. On a vector inside the state invariant (every vector built
    without the copy constructor), [PushBack(x)] followed by [PopBack()]
    restores the visible sequence and the size (the capacity may have
    grown). The other outcomes are the out-of-memory error of the growth
    step, which leaves the vector as it was, and, when [x] refers into
    the vector's storage, undefined behaviour: for a reference to no
    visible element, and for a reference to an element of a full vector,
    whose buffer the growth step releases before [x] is read. *)
Theorem PushBack_PopBack (x : cref T) v h :
  Inv v ->
  match call (PushBack x;; PopBack) v h with
  | Returns _ w' =>
      elements (this w') = elements v /\ GetSize (this w') = GetSize v
  | Throws e w' =>
      e = bad_alloc /\ w' = {| this := v; brk := h |} /\
      GetSize v = GetCapacity v /\ limit < grown (GetCapacity v)
  | Faults f =>
      ~ ref_ok v x \/
      (f = dangling_reference /\ GetSize v = GetCapacity v /\
       exists p, x = element p)
  end.
Proof.
  intros Hv. pose proof (PushBack_ref_spec x v h Hv) as Hp.
  rewrite bind_call.
  destruct (call (PushBack x) v h) as [[] [v1 h1]|e w1|f]; [|done..].
  cbn [this] in Hp. destruct Hp as (Hv1 & (y & He & _) & Hs & _).
  pose proof (PopBack_spec v1 h1 Hv1) as Hq. unfold call in Hq.
  destruct (PopBack _) as [[] w2|e w2|f]; [|done..].
  destruct Hq as (_ & Hs2 & He2 & _).
  unfold GetSize. destruct Hv as (? & ? & ?). split; [|lia].
  rewrite He2, He, Hs.
  rewrite take_app_length'; [done|].
  rewrite elements_length by (unfold Stored; lia). lia.
Qed.

(** X7. [PopBack()] never fails and never touches the buffer or the
    capacity: on an empty vector it changes nothing (the size does not
    wrap around), otherwise it drops the last element. *)
Theorem PopBack_drops_last v h :
  Inv v ->
  exists w',
    call PopBack v h = Returns tt w' /\
    elements (this w') = take (length (elements v) - 1) (elements v) /\
    GetCapacity (this w') = GetCapacity v /\
    items_ (this w') = items_ v /\ brk w' = h /\
    (GetSize v = 0 -> this w' = v) /\
    (0 < GetSize v -> GetSize (this w') = GetSize v - 1).
Proof.
  intros Hv. pose proof Hv as (Hs & Hc & Hl).
  pose proof limit_bound. pose proof PTRDIFF_MAX_twice.
  unfold PopBack, GetSize, GetCapacity. unfold_M.
  destruct (Z.ltb_spec 0 (size_ v)); unfold_M.
  - rewrite wrap_small by lia. eexists. split; [done|].
    cbn [this items_ size_ capacity_ brk]. repeat split; try lia.
    unfold elements. cbn [items_ size_]. rewrite take_take, length_take.
    f_equal. lia.
  - eexists. split; [done|]. cbn [this brk]. repeat split; try lia.
    unfold elements. rewrite take_take, length_take. f_equal. lia.
Qed.

(** X8. On a vector inside the state invariant (every vector built
    without the copy constructor), [Insert(begin() + k, value)] puts a
    value [x] at position [k], before the elements that were at [k] and
    after, which keep their order; the returned cursor is position [k] of
    the buffer the vector has after the call; the capacity grows as for
    [PushBack]. At [k = 0] the value comes first, at [k = GetSize()]
    last. [x] is what [value] holds when the function reads it: the
    argument, when that is an object of its own; when it refers to the
    visible element at index [j] of the vector itself, with a free slot
    the former element at [j] for [j <= k] and the one at [j - 1] for
    [j > k], since the slots have been shifted by then, and in a growth
    step the former element at [j]. *)
Theorem Insert_places_value (value : cref T) v h k :
  Inv v -> 0 <= k <= GetSize v -> ref_ok v value ->
  match call (Insert (ptr_add (begin v) k) value) v h with
  | Returns p w' =>
      exists x,
        inserted v k value = Some x /\
        elements (this w') =
          take (Z.to_nat k) (elements v) ++ x :: drop (Z.to_nat k) (elements v) /\
        elements (this w') !! Z.to_nat k = Some x /\
        GetSize (this w') = GetSize v + 1 /\
        GetCapacity (this w') =
          (if GetSize v <? GetCapacity v then GetCapacity v
           else grown (GetCapacity v)) /\
        p = ptr_add (begin (this w')) k /\
        (k = 0 -> elements (this w') = x :: elements v) /\
        (k = GetSize v -> elements (this w') = elements v ++ [x])
  | Throws e w' =>
      e = bad_alloc /\ w' = {| this := v; brk := h |} /\
      GetSize v = GetCapacity v /\ limit < grown (GetCapacity v)
  | Faults _ => False
  end.
Proof.
  unfold GetSize, GetCapacity. intros Hv Hk Hr.
  pose proof (Insert_ref_spec value v h k Hv Hk) as Hp.
  destruct (call (Insert _ value) v h) as [p w'|e w'|f]; [|done..].
  destruct Hp as (_ & (x & He & Hx) & Hs & Hc & Hp).
  assert (length (elements v) = Z.to_nat (size_ v)) as Hlen
    by by apply elements_length, Inv_Stored.
  exists x. split; [by apply Hx|].
  split; [done|]. split.
  { rewrite He. rewrite lookup_app_r by (rewrite length_take; lia).
    rewrite length_take. by replace (Z.to_nat k - _)%nat with 0%nat by lia. }
  do 3 (split; [done|]). split.
  - intros ->. by rewrite He.
  - intros ->. rewrite He, <- Hlen, firstn_all, drop_all. done.
Qed.

(** X9. On a vector inside the state invariant (every vector built
    without the copy constructor) and for [x] an object of its own, not
    an element of the vector, [Insert(end(), x)] leaves the vector and
    the allocator in exactly the state [PushBack(x)] leaves them in, slot
    for slot, and throws when it throws. *)
Theorem Insert_at_end_is_PushBack x v h :
  Inv v ->
  match call (Insert (end_ v) (object x)) v h, call (PushBack (object x)) v h with
  | Returns p w1, Returns _ w2 => w1 = w2 /\ p = ptr_add (begin (this w1)) (GetSize v)
  | Throws e1 w1, Throws e2 w2 => e1 = e2 /\ w1 = w2
  | _, _ => False
  end.
Proof.
  intros (Hs & Hc & Hl). pose proof limit_bound. pose proof PTRDIFF_MAX_twice.
  unfold Insert, PushBack, GetSize. unfold_M.
  destruct (Z.leb_spec 0 (size_ v)); [|lia].
  destruct (Z.leb_spec (size_ v) (size_ v)); [|lia]. unfold_M.
  destruct (Z.eqb_spec (capacity_ v) 0) as [Hz|Hz]; unfold_M.
  - destruct (Z.ltb_spec (size_ v) (capacity_ v)); [lia|]. unfold_M.
    rewrite ArrayPtr_new_run by lia.
    destruct (Z.leb_spec 1 limit); unfold_M; [|done].
    assert (size_ v = 0) as Hsz by lia. rewrite Hsz.
    rewrite store_Some by (rewrite length_fresh; lia). by unfold_M.
  - destruct (Z.ltb_spec (size_ v) (capacity_ v)); unfold_M.
    + rewrite copy_backward_spec by lia. unfold_M.
      rewrite Z.sub_diag. simpl (Z.to_nat 0). rewrite take_0, app_nil_l, Z.sub_0_r, take_drop.
      rewrite store_Some by lia. by unfold_M.
    + rewrite ArrayPtr_new_run by (rewrite wrap_small; lia).
      destruct (_ <=? limit) eqn:E; unfold_M; [|done].
      rewrite !copy_spec by (rewrite ?wrap_small by lia; lengths). unfold_M.
      rewrite Z.sub_diag. simpl (Z.to_nat 0).
      rewrite !take_0, !app_nil_l, !drop_0. rewrite ?Z.add_0_r.
      replace (Z.to_nat (size_ v + 1)) with (Z.to_nat (size_ v) + 1)%nat by lia.
      set (s1 := take (Z.to_nat (size_ v)) (slots (items_ v)) ++ _).
      replace (Z.to_nat (size_ v) + 1)%nat with (Z.to_nat (size_ v + 1)) by lia.
      rewrite take_drop.
      rewrite store_Some by (subst s1; rewrite ?wrap_small in * by lia; lengths).
      by unfold_M.
Qed.

(** X10. [Erase(begin() + k)] removes the element at [k] and closes the
    gap in order; the element after it, if any, is now at [k], where the
    returned cursor points, in the same buffer; capacity and allocator
    are untouched. *)
Theorem Erase_removes v h k :
  Inv v -> 0 <= k < GetSize v ->
  exists p w',
    call (Erase (ptr_add (begin v) k)) v h = Returns p w' /\
    elements (this w') =
      take (Z.to_nat k) (elements v) ++ drop (S (Z.to_nat k)) (elements v) /\
    GetSize (this w') = GetSize v - 1 /\
    GetCapacity (this w') = GetCapacity v /\
    p = ptr_add (begin v) k /\
    elements (this w') !! Z.to_nat k = elements v !! S (Z.to_nat k) /\
    brk w' = h.
Proof.
  unfold GetSize, GetCapacity. intros Hv Hk.
  pose proof (Erase_spec v h k Hv Hk) as Hp.
  destruct (call (Erase _) v h) as [p w'|e w'|f] eqn:E; [|done..].
  destruct Hp as (_ & He & Hs & Hc & Hp & Hb).
  exists p, w'. do 4 (split; [done|]).
  assert (length (elements v) = Z.to_nat (size_ v)) as Hlen
    by by apply elements_length, Inv_Stored.
  split; [|split; [|done]].
  - subst p. unfold begin, ptr_add, Get. cbn [base off]. f_equal.
    revert E. unfold Erase. unfold_M.
    destruct (Z.leb_spec 0 k); [|lia].
    destruct (Z.ltb_spec k (size_ v)); [|lia]. unfold_M.
    destruct (Raw.move_within _ _ _ _); unfold_M; [|done].
    by intros [= _ <-].
  - rewrite He, lookup_app_r by (rewrite length_take; lia).
    rewrite length_take, lookup_drop. f_equal. lia.
Qed.

(** X11. On a vector inside the state invariant (every vector built
    without the copy constructor), erasing the element at [k] and
    inserting a copy of its value, taken before the call, at the
    returned cursor restores the sequence, and never grows the buffer. *)
Theorem Erase_Insert_round_trip v h k x :
  Inv v -> 0 <= k < GetSize v -> elements v !! Z.to_nat k = Some x ->
  exists q w',
    call (b ← get begin; p ← Erase (ptr_add b k); Insert p (object x)) v h =
      Returns q w' /\
    elements (this w') = elements v /\
    GetSize (this w') = GetSize v /\
    GetCapacity (this w') = GetCapacity v.
Proof.
  unfold GetSize, GetCapacity. intros Hv Hk Hx.
  pose proof (Erase_spec v h k Hv Hk) as Hp.
  change (call (b ← get begin; p ← Erase (ptr_add b k); Insert p (object x)) v h)
    with (match call (Erase (ptr_add (begin v) k)) v h with
          | Returns p w' => Insert p (object x) w'
          | Throws e w' => Throws e w'
          | Faults f => Faults f
          end).
  destruct (call (Erase _) v h) as [p [v1 h1]|e w1|f]; [|done..].
  cbn [this] in Hp. destruct Hp as (Hv1 & He & Hs & Hc & -> & _).
  pose proof Hv as (? & ? & ?).
  pose proof (Insert_spec x v1 h1 k Hv1 ltac:(lia)) as Hq. unfold call in Hq.
  destruct (Insert _ (object x) _) as [q w2|e w2|f]; [| |done].
  - destruct Hq as (_ & He2 & Hs2 & Hc2 & _).
    exists q, w2. split; [done|]. split.
    + rewrite He2, He.
      assert (length (take (Z.to_nat k) (elements v)) = Z.to_nat k) as Hlen.
      { rewrite length_take, elements_length by by apply Inv_Stored. lia. }
      rewrite take_app_length' by done.
      rewrite drop_app_length' by done.
      by rewrite take_drop_middle.
    + split; [lia|]. rewrite Hc2.
      destruct (Z.ltb_spec (size_ v1) (capacity_ v1)); lia.
  - destruct Hq as (_ & _ & ? & _). lia.
Qed.

(** X12. The cursor checks: [Insert] fails its [assert] for a position
    outside [0, GetSize()], [Erase] for one outside [0, GetSize()), so
    [Erase(end())] always does, also on an empty vector; inside these
    ranges, on a vector inside the invariant, neither faults, [Insert]
    being given an object of its own or a visible element of the
    vector. *)
Theorem cursor_asserts v h k (x : cref T) :
  (~ (0 <= k <= GetSize v) ->
   call (Insert (ptr_add (begin v) k) x) v h = Faults assertion_failed) /\
  (~ (0 <= k < GetSize v) ->
   call (Erase (ptr_add (begin v) k)) v h = Faults assertion_failed) /\
  call (Erase (end_ v)) v h = Faults assertion_failed /\
  (Inv v -> 0 <= k <= GetSize v -> ref_ok v x ->
   forall f, call (Insert (ptr_add (begin v) k) x) v h <> Faults f) /\
  (Inv v -> 0 <= k < GetSize v ->
   forall f, call (Erase (ptr_add (begin v) k)) v h <> Faults f).
Proof.
  unfold GetSize. split; [apply Insert_outside|]. split; [apply Erase_outside|].
  split; [|split].
  - apply (Erase_outside v h (size_ v)). lia.
  - intros Hv Hk Hx f Hf. pose proof (Insert_ref_spec x v h k Hv Hk) as Hp.
    by rewrite Hf in Hp.
  - intros Hv Hk f Hf. pose proof (Erase_spec v h k Hv Hk) as Hp.
    by rewrite Hf in Hp.
Qed.

(** X13. [operator[]] fails its [assert] for [index >= GetSize()], where
    [At] throws, and returns the element otherwise. *)
Theorem subscript_asserts v h index :
  (GetSize v <= index -> call (subscript index) v h = Faults assertion_failed) /\
  (Stored v -> 0 <= index < GetSize v ->
   exists x, elements v !! Z.to_nat index = Some x /\
     call (subscript index) v h = Returns x {| this := v; brk := h |}).
Proof.
  unfold GetSize. split.
  - intros Hi. unfold subscript. unfold_M.
    destruct (Z.ltb_spec index (size_ v)); [lia | done].
  - intros Hs Hi.
    destruct (lookup_lt_is_Some_2 (elements v) (Z.to_nat index)) as [x Hx].
    { rewrite elements_length by done. lia. }
    exists x. split; [done|]. rewrite subscript_At by lia. by apply At_run.
Qed.
(** X30. [v.PushBack(v[i])] for a visible element [i] of a vector inside
    the state invariant whose buffer was allocated before the call: with
    a free slot it does what [PushBack] of a copy of the element does,
    appending its value; on a full vector it takes the growth step and,
    unless the allocator refuses the grown buffer (the out-of-memory
    error, vector unchanged), reads the element from the buffer that
    step has released. *)
Theorem PushBack_of_own_element v h i x :
  Inv v -> Allocated h v -> 0 <= i < GetSize v ->
  elements v !! Z.to_nat i = Some x ->
  call (item ← subscript_ref i; PushBack item) v h =
    if GetSize v <? GetCapacity v then call (PushBack (object x)) v h
    else if grown (GetCapacity v) <=? limit then Faults dangling_reference
    else Throws bad_alloc {| this := v; brk := h |}.
Proof.
  unfold GetSize, GetCapacity, grown.
  intros (Hs & Hc & Hl) (Hh & Ha) Hi Hx.
  pose proof limit_bound. pose proof PTRDIFF_MAX_twice.
  unfold elements in Hx. rewrite lookup_take_lt in Hx by lia.
  unfold subscript_ref, PushBack. unfold_M.
  destruct (Z.ltb_spec i (size_ v)); [|lia]. unfold_M.
  destruct (Z.ltb_spec (size_ v) (capacity_ v)); unfold_M.
  - by rewrite load_lookup, Hx by lia.
  - destruct (Z.eqb_spec (capacity_ v) 0) as [Hz|Hz]; [lia|]. unfold_M.
    rewrite wrap_small by lia.
    rewrite ArrayPtr_new_run by lia.
    replace (capacity_ v * 2) with (2 * capacity_ v) by lia.
    destruct (Z.leb_spec (2 * capacity_ v) limit); [|done]. unfold_M.
    rewrite copy_spec by lengths. unfold_M.
    destruct (Z.eqb_spec (addr (items_ v)) h); [lia | done].
Qed.
End Editing.

(** ** Capacity and size *)

Section Sizing.
Context {T : Type} `{Element T} `{Allocator T}.
Implicit Types (v : SimpleVector T) (w : world T) (h : Z) (x item : T).

(** X14. [Resize(n)] with [GetSize() < n <= GetCapacity()] appends
    [n - GetSize()] value-initialised elements in place: same buffer,
    same capacity, nothing allocated. *)
Theorem Resize_within_capacity v h n :
  Inv v -> GetSize v < n <= GetCapacity v ->
  exists w',
    call (Resize n) v h = Returns tt w' /\
    elements (this w') =
      elements v ++ replicate (Z.to_nat (n - GetSize v)) value_init /\
    GetSize (this w') = n /\
    GetCapacity (this w') = GetCapacity v /\
    addr (items_ (this w')) = addr (items_ v) /\ brk w' = h.
Proof.
  unfold GetSize, GetCapacity. intros Hv Hn. pose proof Hv as (? & ? & ?).
  pose proof (Resize_spec v h n Hv ltac:(lia)) as Hp.
  assert (Hfit : exists w', call (Resize n) v h = Returns tt w' /\
            addr (items_ (this w')) = addr (items_ v) /\ brk w' = h).
  { unfold Resize. unfold_M.
    destruct (Z.leb_spec n (size_ v)); [lia|]. unfold_M.
    destruct (Z.leb_spec n (capacity_ v)); [|lia]. unfold_M.
    rewrite fill_spec by lia. unfold_M. by eexists. }
  destruct Hfit as (w' & Hrun & Ha & Hb). rewrite Hrun in Hp.
  destruct Hp as (_ & Hs & He & Hc).
  destruct (Z.leb_spec n (size_ v)); [lia|].
  destruct (Z.leb_spec n (capacity_ v)); [|lia].
  by exists w'.
Qed.

(** X15. On a vector inside the state invariant (every vector built
    without the copy constructor), growing with [Resize(n)] and resizing
    back to the old size restores the visible sequence; the capacity
    stays where the first call left it; the only other outcome is the
    out-of-memory error of the first call, which leaves the vector as it
    was. *)
Theorem Resize_up_and_back v h n :
  Inv v -> GetSize v <= n ->
  match call (Resize n;; Resize (GetSize v)) v h with
  | Returns _ w' =>
      elements (this w') = elements v /\
      GetSize (this w') = GetSize v /\
      GetCapacity (this w') =
        (if n <=? GetCapacity v then GetCapacity v
         else Z.max n (2 * GetCapacity v))
  | Throws e w' =>
      e = bad_alloc /\ w' = {| this := v; brk := h |} /\
      limit < Z.max n (2 * GetCapacity v)
  | Faults _ => False
  end.
Proof.
  unfold GetSize, GetCapacity. intros Hv Hn. pose proof Hv as (? & ? & ?).
  pose proof (Resize_spec v h n Hv ltac:(lia)) as Hp.
  rewrite bind_call.
  destruct (call (Resize n) v h) as [[] [v1 h1]|e w1|f]; [| |done].
  - cbn [this] in Hp. destruct Hp as (Hv1 & Hs & He & Hc).
    pose proof (Resize_spec v1 h1 (size_ v) Hv1 ltac:(lia)) as Hq.
    unfold call in Hq.
    destruct (Resize (size_ v) _) as [[] w2|e w2|f]; [| |done].
    + destruct Hq as (_ & Hs2 & He2 & Hc2).
      destruct (Z.leb_spec (size_ v) (size_ v1)); [|lia].
      destruct (Z.leb_spec (size_ v) (capacity_ v1)); [|destruct Hv1; lia].
      split; [|split; [done | lia]].
      rewrite He2, He.
      assert (length (elements v) = Z.to_nat (size_ v)) as Hlen
        by by apply elements_length, Inv_Stored.
      destruct (Z.leb_spec n (size_ v)).
      * rewrite take_take. replace (_ `min` _)%nat with (Z.to_nat (size_ v)) by lia.
        by rewrite <- Hlen, firstn_all.
      * by rewrite take_app_length'.
    + destruct Hq as (_ & _ & ? & _). destruct Hv1 as (? & ? & ?). lia.
  - destruct Hp as (-> & -> & _ & ?). done.
Qed.

(** X16. On a vector inside the state invariant (every vector built
    without the copy constructor), [Reserve(n)] keeps the elements and
    the size and makes the capacity [max(capacity, n)]: it never shrinks,
    and for [n <= GetCapacity()] it changes nothing at all; it throws the
    out-of-memory error, leaving the vector as it was, only when the
    allocator does not grant [n] slots. *)
Theorem Reserve_keeps_elements v h n :
  Inv v -> 0 <= n ->
  match call (Reserve n) v h with
  | Returns _ w' =>
      elements (this w') = elements v /\
      GetSize (this w') = GetSize v /\
      GetCapacity (this w') = Z.max (GetCapacity v) n /\
      (n <= GetCapacity v -> w' = {| this := v; brk := h |})
  | Throws e w' =>
      e = bad_alloc /\ w' = {| this := v; brk := h |} /\
      GetCapacity v < n /\ limit < n
  | Faults _ => False
  end.
Proof.
  unfold GetSize, GetCapacity. intros Hv Hn.
  pose proof (Reserve_spec v h n Hv Hn) as Hp.
  assert (n <= capacity_ v -> call (Reserve n) v h = Returns tt {| this := v; brk := h |}) as Hnoop.
  { intros Hle. unfold Reserve. unfold_M.
    destruct (Z.ltb_spec (capacity_ v) n); [lia | done]. }
  destruct (call (Reserve n) v h) as [[] w'|e w'|f]; [| |done].
  - destruct Hp as (_ & Hs & He & Hc). do 3 (split; [done|]).
    intros Hle. by injection (Hnoop Hle).
  - done.
Qed.

(** X17. The constructors from a count: [SimpleVector(n)] is
    [SimpleVector(n, Type{})]; [SimpleVector(n, x)] holds [n] copies of
    [x] with capacity [n], and for [n = 0] it is the empty vector without
    a buffer. *)
Theorem filling_constructors n x h :
  0 <= n ->
  construct (SimpleVector_size n) h =
    construct (SimpleVector_size_value n value_init) h /\
  match construct (SimpleVector_size_value n x) h with
  | Returns _ w' =>
      elements (this w') = replicate (Z.to_nat n) x /\
      GetSize (this w') = n /\ GetCapacity (this w') = n /\
      (forall i, 0 <= i < n ->
         call (At i) (this w') (brk w') = Returns x w') /\
      (n = 0 -> w' = {| this := blank; brk := h |})
  | Throws e w' => e = bad_alloc /\ limit < n
  | Faults _ => False
  end.
Proof.
  intros Hn. split; [done|].
  pose proof (SimpleVector_size_value_spec n x h Hn) as Hp.
  assert (n = 0 -> construct (SimpleVector_size_value 0 x) h =
                   Returns tt {| this := blank; brk := h |}) as Hzero.
  { intros _. unfold SimpleVector_size_value, blank. unfold_M.
    rewrite ArrayPtr_new_0. unfold null. unfold_M.
    rewrite fill_spec by (simpl; lia). by unfold_M. }
  destruct (construct _ h) as [[] [v' h']|e w'|f] eqn:E; [|done..].
  cbn [this brk] in *. destruct Hp as (Hv & Hs & Hc & He).
  unfold GetSize, GetCapacity. do 3 (split; [done|]). split.
  - intros i Hi. apply At_run; [by apply Inv_Stored | lia |].
    rewrite He. apply lookup_replicate_2. lia.
  - intros ->. specialize (Hzero eq_refl). congruence.
Qed.

(** X18. The constructor from an initializer list holds the listed
    values in order, with size and capacity their number. *)
Theorem initializer_list_constructor (init : list T) h :
  match construct (SimpleVector_init init) h with
  | Returns _ w' =>
      elements (this w') = init /\
      GetSize (this w') = Z.of_nat (length init) /\
      GetCapacity (this w') = Z.of_nat (length init) /\
      (forall (i : nat) x, init !! i = Some x ->
         call (At (Z.of_nat i)) (this w') (brk w') = Returns x w')
  | Throws e w' => e = bad_alloc /\ limit < Z.of_nat (length init)
  | Faults _ => False
  end.
Proof.
  pose proof (SimpleVector_init_spec init h) as Hp.
  destruct (construct _ h) as [[] [v' h']|e w'|f]; [|done..].
  cbn [this brk] in *. destruct Hp as (Hv & Hs & Hc & He).
  unfold GetSize, GetCapacity. do 3 (split; [done|]).
  intros i x Hx. apply At_run; [by apply Inv_Stored | |].
  - apply lookup_lt_Some in Hx. lia.
  - by rewrite He, Nat2Z.id.
Qed.

(** X19. [SimpleVector(Reserve(n))] is empty with capacity [n]. *)
Theorem reserving_constructor n h :
  0 <= n ->
  match construct (SimpleVector_reserve (ReserveProxyObj.Reserve n)) h with
  | Returns _ w' =>
      GetSize (this w') = 0 /\ IsEmpty (this w') = true /\
      elements (this w') = [] /\
      GetCapacity (this w') = n /\
      Inv (this w')
  | Throws e w' => e = bad_alloc /\ limit < n
  | Faults _ => False
  end.
Proof.
  intros Hn. pose proof (Reserve_spec blank h n Inv_blank Hn) as Hp.
  change (construct (SimpleVector_reserve (ReserveProxyObj.Reserve n)) h)
    with (call (Reserve n) blank h).
  destruct (call (Reserve n) blank h) as [[] w'|e w'|f]; [| |done].
  - destruct Hp as (Hv & Hs & He & Hc).
    change (size_ blank) with 0 in Hs. change (elements blank) with (@nil T) in He.
    change (capacity_ blank) with 0 in Hc.
    unfold GetSize, GetCapacity, IsEmpty. rewrite Hs, He, Hc.
    do 3 (split; [done|]). split; [lia | done].
  - destruct Hp as (? & _ & _ & ?). done.
Qed.

(** X20. [swap] exchanges the two vectors entirely (buffer, size,
    capacity) without allocating, and swapping twice restores both. *)
Theorem swap_twice v (other : SimpleVector T) h :
  call (swap other) v h = Returns v {| this := other; brk := h |} /\
  call (other' ← swap other; swap other') v h =
    Returns other {| this := v; brk := h |}.
Proof.
  split; [apply swap_run|].
  change (call (other' ← swap other; swap other') v h)
    with (match call (swap other) v h with
          | Returns o w' => swap o w'
          | Throws e w' => Throws e w'
          | Faults f => Faults f
          end).
  rewrite swap_run. apply swap_run.
Qed.

(** X21. Copy assignment: assigning a vector to itself changes nothing;
    assigning another vector gives this one the other's elements and
    size in a buffer of its own, but, going through the copy
    constructor, capacity 0. *)
Theorem copy_assignment v (rhs : SimpleVector T) h :
  call (operator_assign None) v h = Returns tt {| this := v; brk := h |} /\
  (Inv rhs ->
   exists w',
     call (operator_assign (Some rhs)) v h = Returns tt w' /\
     elements (this w') = elements rhs /\
     GetSize (this w') = GetSize rhs /\
     GetCapacity (this w') = 0 /\
     (0 < GetCapacity rhs ->
        addr (items_ (this w')) = h /\ brk w' = h + 1)).
Proof.
  split; [done|]. intros Hr.
  destruct (SimpleVector_copy_spec rhs h Hr) as (s & Hrun & Hlen & He).
  unfold operator_assign, temporary. unfold_M. unfold construct in Hrun. rewrite Hrun.
  unfold swap. unfold_M.
  eexists. split; [done|]. unfold GetSize, GetCapacity, elements.
  cbn [this items_ size_ capacity_ addr slots brk].
  do 3 (split; [done|]).
  intros Hc. destruct (Z.eqb_spec (capacity_ rhs) 0); [lia | done].
Qed.

(** X22. [PushBack] of an object on the copy of a non-empty vector stores
    outside the copy's buffer: with capacity 0 the copy takes the growth
    step to one slot and then writes at index [GetSize() >= 1]. *)
Theorem PushBack_on_copy_overruns v x h :
  Inv v -> 0 < GetSize v ->
  construct (SimpleVector_copy v;; PushBack (object x)) h = Faults out_of_bounds.
Proof.
  unfold GetSize. intros Hv Hs. pose proof Hv as (? & ? & ?).
  pose proof limit_bound.
  destruct (SimpleVector_copy_spec v h Hv) as (s & Hrun & Hlen & He).
  change (construct (SimpleVector_copy v;; PushBack (object x)) h)
    with (match construct (SimpleVector_copy v) h with
          | Returns _ w' => PushBack (object x) w'
          | Throws e w' => Throws e w'
          | Faults f => Faults f
          end).
  rewrite Hrun. unfold PushBack. unfold_M.
  destruct (Z.ltb_spec (size_ v) 0); [lia|]. unfold_M.
  rewrite ArrayPtr_new_run by lia.
  destruct (Z.leb_spec 1 limit); [|lia]. unfold_M.
  rewrite store_None; [by unfold_M|].
  rewrite length_fresh. lia.
Qed.
End Sizing.

(** ** More on the relational operators *)

Section Ordering.
Context {T : Type} `{Element T}.
Implicit Types (a b lhs rhs : SimpleVector T).

Lemma Stored_size a a' :
  Stored a -> Stored a' -> elements a = elements a' -> size_ a = size_ a'.
Proof.
  intros Ha Ha' He. apply (f_equal length) in He.
  rewrite !elements_length in He by done. unfold Stored in *. lia.
Qed.

(** X23. The six operators look at the visible sequences only: vectors
    with the same elements give the same results, whatever their
    capacities and the slots beyond their sizes hold. *)
Theorem comparisons_see_elements_only a a' b b' :
  Stored a -> Stored a' -> Stored b -> Stored b' ->
  elements a = elements a' -> elements b = elements b' ->
  operator_eq a b = operator_eq a' b' /\
  operator_ne a b = operator_ne a' b' /\
  operator_lt a b = operator_lt a' b' /\
  operator_le a b = operator_le a' b' /\
  operator_gt a b = operator_gt a' b' /\
  operator_ge a b = operator_ge a' b'.
Proof.
  intros Ha Ha' Hb Hb' Hea Heb.
  pose proof (Stored_size a a' Ha Ha' Hea) as Hsa.
  pose proof (Stored_size b b' Hb Hb' Heb) as Hsb.
  unfold operator_ne, operator_le, operator_gt, operator_ge.
  rewrite !operator_eq_run, !operator_lt_run by done.
  by rewrite Hea, Heb, Hsa, Hsb.
Qed.

Context `{!LawfulElement T}.

Lemma all_eqb_eq (xs : list T) : forall ys,
  length xs = length ys -> (all_eqb xs ys = true <-> xs = ys).
Proof.
  induction xs as [|x xs IH]; intros [|y ys] Hlen; simpl in *; try done.
  destruct (elem_eq x y) eqn:E.
  - apply elem_eq_true in E as ->. rewrite IH by lia. split; [by intros -> | by intros [= ->]].
  - split; [done|]. intros [= -> _]. 
    assert (elem_eq y y = true) by by apply elem_eq_true. congruence.
Qed.

Lemma lex_ltb_trichotomy (xs : list T) : forall ys,
  (lex_ltb xs ys = true /\ xs <> ys /\ lex_ltb ys xs = false) \/
  (lex_ltb xs ys = false /\ xs = ys /\ lex_ltb ys xs = false) \/
  (lex_ltb xs ys = false /\ xs <> ys /\ lex_ltb ys xs = true).
Proof.
  induction xs as [|x xs IH]; intros [|y ys]; simpl.
  - right. by left.
  - by left.
  - right. by right.
  - destruct (elem_lt x y) eqn:Exy.
    + left. rewrite (elem_lt_asym x y Exy). split; [done|]. split; [|done].
      intros [= -> _]. by rewrite elem_lt_irrefl in Exy.
    + destruct (elem_lt y x) eqn:Eyx.
      * right. right. split; [done|]. split; [|done].
        intros [= -> _]. by rewrite elem_lt_irrefl in Eyx.
      * pose proof (elem_lt_connected x y Exy Eyx) as ->.
        destruct (IH ys) as [(? & ? & ?) | [(? & ? & ?) | (? & ? & ?)]].
        -- left. split; [done|]. split; [congruence | done].
        -- right. left. split; [done|]. split; [congruence | done].
        -- right. right. split; [done|]. split; [congruence | done].
Qed.

(** X24. For elements whose [==] is equality and whose [<] is a strict
    total order: [==] holds exactly for equal sequences, exactly one of
    [<], [==], [>] holds, [a <= b] is [b >= a] although the two are
    computed differently, and [==] is symmetric. *)
Theorem relational_operators_total_order lhs rhs :
  Stored lhs -> Stored rhs ->
  exists eq lt gt : bool,
    operator_eq lhs rhs = Some eq /\
    operator_lt lhs rhs = Some lt /\
    operator_gt lhs rhs = Some gt /\
    (eq = true <-> elements lhs = elements rhs) /\
    (lt = true /\ eq = false /\ gt = false \/
     lt = false /\ eq = true /\ gt = false \/
     lt = false /\ eq = false /\ gt = true) /\
    operator_le lhs rhs = operator_ge rhs lhs /\
    operator_ge lhs rhs = operator_le rhs lhs /\
    operator_eq lhs rhs = operator_eq rhs lhs.
Proof.
  intros Hl Hr.
  unfold operator_le, operator_gt, operator_ge.
  rewrite !operator_eq_run, !operator_lt_run by done.
  assert (Heq : (if size_ lhs =? size_ rhs
                 then all_eqb (elements lhs) (elements rhs) else false) = true
                <-> elements lhs = elements rhs).
  { destruct (Z.eqb_spec (size_ lhs) (size_ rhs)) as [Hs|Hs].
    - apply all_eqb_eq. rewrite !elements_length by done. lia.
    - split; [done|]. intros He. by apply Stored_size in He. }
  assert (Heq' : (if size_ rhs =? size_ lhs
                  then all_eqb (elements rhs) (elements lhs) else false) = true
                <-> elements rhs = elements lhs).
  { destruct (Z.eqb_spec (size_ rhs) (size_ lhs)) as [Hs|Hs].
    - apply all_eqb_eq. rewrite !elements_length by done. lia.
    - split; [done|]. intros He. by apply Stored_size in He. }
  do 3 eexists. do 3 (split; [done|]). split; [exact Heq|].
  destruct (if size_ lhs =? size_ rhs then _ else _) eqn:E1,
           (if size_ rhs =? size_ lhs then _ else _) eqn:E2;
  destruct (lex_ltb_trichotomy (elements lhs) (elements rhs))
    as [(-> & Hne & ->) | [(-> & He & ->) | (-> & Hne & ->)]];
  simpl; try (repeat split; tauto || done);
  try (exfalso; (apply Hne; by apply Heq) || (apply Hne; symmetry; by apply Heq'));
  try (exfalso; assert (false = true) as [=] by (by apply Heq || (apply Heq'; done)));
  try (exfalso; apply Heq in He; congruence);
  try (exfalso; symmetry in He; apply Heq' in He; congruence).
Qed.
End Ordering.

(** ** Concrete runs of the further properties *)

Example v12r_constructed :
  construct (SimpleVector_init [1; 2];; Reserve 4) 1 =
    Returns tt {| this := v12r; brk := 3 |}.
Proof. by vm_compute. Qed.

Lemma Inv_v12r : Inv v12r.
Proof. repeat split; by vm_compute. Defined.

Example v123r_constructed :
  construct (SimpleVector_init [1; 2; 3];; Reserve 4) 1 =
    Returns tt {| this := v123r; brk := 3 |}.
Proof. by vm_compute. Qed.

Lemma Inv_v123r : Inv v123r.
Proof. repeat split; by vm_compute. Defined.

Lemma Stored_v12r : Stored v12r.
Proof. split; by vm_compute. Defined.

Lemma Stored_v12 : Stored v12.
Proof. split; by vm_compute. Defined.

Lemma Built_v123 : Built v123.
Proof.
  apply (Built_ctor (ctor_init [1; 2; 3]) 1 {| this := v123; brk := 2 |});
    by vm_compute.
Defined.

Global Instance int_lawful : LawfulElement Z.
Proof.
  split; cbn [elem_eq elem_lt int_element].
  - apply Z.eqb_eq.
  - apply Z.ltb_irrefl.
  - intros x y Hxy. apply Z.ltb_lt in Hxy. apply Z.ltb_ge. lia.
  - intros x y Hxy Hyx. apply Z.ltb_ge in Hxy, Hyx. lia.
Qed.

Lemma Built_size_le_capacity_witness :
  Built v123 /\
  (0 <= GetSize v123 <= GetCapacity v123 /\
   GetCapacity v123 = Z.of_nat (length (slots (items_ v123))) /\
   GetSize v123 = Z.of_nat (length (elements v123))).
Proof. split; [exact Built_v123 | exact (Built_size_le_capacity v123 Built_v123)]. Defined.


Lemma no_reallocation_when_it_fits_witness :
  Inv v12r /\ method_args (m_PushBack (object 7)) /\
  fits (m_PushBack (object 7)) v12r /\
  exists w',
    call (run_method (m_PushBack (object 7))) v12r 3 = Returns tt w' /\
    addr (items_ (this w')) = addr (items_ v12r) /\ brk w' = 3.
Proof.
  assert (fits (m_PushBack (object 7)) v12r) as Hfit by by vm_compute.
  split; [exact Inv_v12r|]. split; [exact I|]. split; [exact Hfit|].
  pose proof (no_reallocation_when_it_fits (m_PushBack (object 7)) v12r 3
                Inv_v12r I Hfit) as Hp.
  destruct (call (run_method (m_PushBack (object 7))) v12r 3) as [[] w'|e w'|f].
  - exists w'. split; [reflexivity|]. destruct Hp as (Ha & _ & Hb). by split.
  - destruct Hp.
  - exfalso. destruct Hp as [(_ & Hc) | Hr]; [apply Hc | apply Hr]; exact I.
Defined.

Lemma PushBack_all_within_capacity_witness :
  Inv v12r /\ size_ v12r + Z.of_nat (length [7; 8]) <= capacity_ v12r /\
  exists w',
    call (PushBack_all [7; 8]) v12r 3 = Returns tt w' /\
    elements (this w') = [1; 2; 7; 8] /\
    addr (items_ (this w')) = addr (items_ v12r) /\ brk w' = 3.
Proof.
  assert (size_ v12r + Z.of_nat (length [7; 8]) <= capacity_ v12r) as Hfit
    by by vm_compute.
  split; [exact Inv_v12r|]. split; [exact Hfit|].
  pose proof (PushBack_all_within_capacity [7; 8] v12r 3 Inv_v12r Hfit) as Hp.
  destruct (call (PushBack_all [7; 8]) v12r 3) as [[] w'|e w'|f].
  - exists w'. split; [reflexivity|]. destruct Hp as (He & Ha & _ & Hb).
    split; [exact He|]. by split.
  - destruct Hp.
  - destruct Hp.
Defined.

Lemma growth_is_tight_witness :
  [1; 2; 3] <> [] /\
  construct (SimpleVector_default;; PushBack_all [1; 2; 3]) 1 =
    Returns tt {| this := {| items_ := {| addr := 3; slots := [1; 2; 3; -4] |};
                             size_ := 3; capacity_ := 4 |}; brk := 4 |} /\
  (3 <= 4 < 2 * 3 /\ exists k : nat, 4 = 2 ^ Z.of_nat k).
Proof.
  assert ([1; 2; 3] <> @nil Z) as Hne by done.
  assert (construct (SimpleVector_default;; PushBack_all [1; 2; 3]) 1 =
    Returns tt {| this := {| items_ := {| addr := 3; slots := [1; 2; 3; -4] |};
                             size_ := 3; capacity_ := 4 |}; brk := 4 |}) as Hrun
    by by vm_compute.
  split; [exact Hne|]. split; [exact Hrun|].
  exact (growth_is_tight [1; 2; 3] 1 _ Hne Hrun).
Defined.

Lemma PushBack_PopBack_witness :
  Inv v123 /\
  exists w',
    call (PushBack (object 4);; PopBack) v123 2 = Returns tt w' /\
    elements (this w') = elements v123.
Proof.
  split; [exact Inv_v123|].
  pose proof (PushBack_PopBack (object 4) v123 2 Inv_v123) as Hp.
  destruct (call (PushBack (object 4);; PopBack) v123 2) as [[] w'|e w'|f].
  - exists w'. split; [reflexivity | exact (proj1 Hp)].
  - destruct Hp as (_ & _ & _ & Hl). by vm_compute in Hl.
  - destruct Hp as [Hp | (_ & _ & p & Hp)]; [by destruct Hp | discriminate Hp].
Defined.

Lemma PopBack_drops_last_witness :
  Inv v123 /\
  exists w', call PopBack v123 2 = Returns tt w' /\ elements (this w') = [1; 2].
Proof.
  split; [exact Inv_v123|].
  destruct (PopBack_drops_last v123 2 Inv_v123) as (w' & Hrun & He & _).
  exists w'. split; [exact Hrun | exact He].
Defined.

(** [a.Insert(a.begin(), a[2])] on [{1, 2, 3}] with capacity 4 inserts
    2, the value slot 2 holds after the shift. *)
Lemma Insert_places_value_witness :
  Inv v123r /\ 0 <= 0 <= GetSize v123r /\ ref_ok v123r v123r_2 /\
  exists p w',
    call (Insert (ptr_add (begin v123r) 0) v123r_2) v123r 3 = Returns p w' /\
    elements (this w') = [2; 1; 2; 3].
Proof.
  assert (0 <= 0 <= GetSize v123r) as Hk by (split; by vm_compute).
  assert (ref_ok v123r v123r_2) as Hr by (repeat split; by vm_compute).
  split; [exact Inv_v123r|]. split; [exact Hk|]. split; [exact Hr|].
  pose proof (Insert_places_value v123r_2 v123r 3 0 Inv_v123r Hk Hr) as Hp.
  destruct (call (Insert (ptr_add (begin v123r) 0) v123r_2) v123r 3) as [p w'|e w'|f].
  - exists p, w'. split; [reflexivity|].
    destruct Hp as (x & Hx & He & _).
    injection Hx as <-. exact He.
  - destruct Hp as (_ & _ & _ & Hl). by vm_compute in Hl.
  - destruct Hp.
Defined.

Lemma Insert_at_end_is_PushBack_witness :
  Inv v12r /\
  match call (Insert (end_ v12r) (object 7)) v12r 3, call (PushBack (object 7)) v12r 3 with
  | Returns p w1, Returns _ w2 =>
      w1 = w2 /\ p = ptr_add (begin (this w1)) (GetSize v12r)
  | Throws e1 w1, Throws e2 w2 => e1 = e2 /\ w1 = w2
  | _, _ => False
  end.
Proof.
  split; [exact Inv_v12r | exact (Insert_at_end_is_PushBack 7 v12r 3 Inv_v12r)].
Defined.

Lemma Erase_removes_witness :
  Inv v123 /\ 0 <= 1 < GetSize v123 /\
  exists p w',
    call (Erase (ptr_add (begin v123) 1)) v123 2 = Returns p w' /\
    elements (this w') = [1; 3].
Proof.
  assert (0 <= 1 < GetSize v123) as Hk by (split; by vm_compute).
  split; [exact Inv_v123|]. split; [exact Hk|].
  destruct (Erase_removes v123 2 1 Inv_v123 Hk) as (p & w' & Hrun & He & _).
  exists p, w'. split; [exact Hrun | exact He].
Defined.

Lemma Erase_Insert_round_trip_witness :
  Inv v123 /\ 0 <= 1 < GetSize v123 /\ elements v123 !! Z.to_nat 1 = Some 2 /\
  exists q w',
    call (b ← get begin; p ← Erase (ptr_add b 1); Insert p (object 2)) v123 2 =
      Returns q w' /\
    elements (this w') = elements v123.
Proof.
  assert (0 <= 1 < GetSize v123) as Hk by (split; by vm_compute).
  assert (elements v123 !! Z.to_nat 1 = Some 2) as Hx by by vm_compute.
  split; [exact Inv_v123|]. split; [exact Hk|]. split; [exact Hx|].
  destruct (Erase_Insert_round_trip v123 2 1 2 Inv_v123 Hk Hx)
    as (q & w' & Hrun & He & _).
  exists q, w'. split; [exact Hrun | exact He].
Defined.

Lemma cursor_asserts_witness :
  (~ (0 <= 4 <= GetSize v123) /\
   call (Insert (ptr_add (begin v123) 4) (object 9)) v123 2 = Faults assertion_failed) /\
  (~ (0 <= 3 < GetSize v123) /\
   call (Erase (ptr_add (begin v123) 3)) v123 2 = Faults assertion_failed) /\
  (Inv v123 /\ 0 <= 1 < GetSize v123 /\
   forall f, call (Erase (ptr_add (begin v123) 1)) v123 2 <> Faults f).
Proof.
  assert (~ (0 <= 4 <= GetSize v123)) as H4 by (intros [_ Hle]; by vm_compute in Hle).
  assert (~ (0 <= 3 < GetSize v123)) as H3 by (intros [_ Hlt]; by vm_compute in Hlt).
  assert (0 <= 1 < GetSize v123) as H1 by (split; by vm_compute).
  split; [split; [exact H4 | exact (proj1 (cursor_asserts v123 2 4 (object 9)) H4)]|].
  split; [split; [exact H3 | exact (proj1 (proj2 (cursor_asserts v123 2 3 (object 9))) H3)]|].
  split; [exact Inv_v123|]. split; [exact H1|].
  exact (proj2 (proj2 (proj2 (proj2 (cursor_asserts v123 2 1 (object 9))))) Inv_v123 H1).
Defined.

(** [a.PushBack(a[0])] on the full vector [{1, 2, 3}]. *)
Lemma PushBack_of_own_element_witness :
  Inv v123 /\ Allocated 2 v123 /\ 0 <= 0 < GetSize v123 /\
  elements v123 !! Z.to_nat 0 = Some 1 /\
  call (item ← subscript_ref 0; PushBack item) v123 2 = Faults dangling_reference.
Proof.
  assert (Allocated 2 v123) as Ha by (repeat split; by vm_compute).
  assert (0 <= 0 < GetSize v123) as Hi by (split; by vm_compute).
  assert (elements v123 !! Z.to_nat 0 = Some 1) as Hx by by vm_compute.
  split; [exact Inv_v123|]. split; [exact Ha|]. split; [exact Hi|].
  split; [exact Hx|].
  exact (PushBack_of_own_element v123 2 0 1 Inv_v123 Ha Hi Hx).
Defined.

Lemma subscript_asserts_witness :
  (GetSize v123 <= 3 /\
   call (subscript 3) v123 2 = Faults assertion_failed) /\
  (Stored v123 /\ 0 <= 1 < GetSize v123 /\
   exists x, elements v123 !! Z.to_nat 1 = Some x /\
     call (subscript 1) v123 2 = Returns x {| this := v123; brk := 2 |}).
Proof.
  assert (GetSize v123 <= 3) as H3 by by vm_compute.
  assert (0 <= 1 < GetSize v123) as H1 by (split; by vm_compute).
  split; [split; [exact H3 | exact (proj1 (subscript_asserts v123 2 3) H3)]|].
  split; [exact Stored_v123|]. split; [exact H1|].
  exact (proj2 (subscript_asserts v123 2 1) Stored_v123 H1).
Defined.

Lemma Resize_within_capacity_witness :
  Inv v12r /\ GetSize v12r < 4 <= GetCapacity v12r /\
  exists w',
    call (Resize 4) v12r 3 = Returns tt w' /\
    elements (this w') = [1; 2; 0; 0] /\
    addr (items_ (this w')) = addr (items_ v12r) /\ brk w' = 3.
Proof.
  assert (GetSize v12r < 4 <= GetCapacity v12r) as Hn by (split; by vm_compute).
  split; [exact Inv_v12r|]. split; [exact Hn|].
  destruct (Resize_within_capacity v12r 3 4 Inv_v12r Hn)
    as (w' & Hrun & He & _ & _ & Ha & Hb).
  exists w'. split; [exact Hrun|]. split; [exact He|]. by split.
Defined.

Lemma Resize_up_and_back_witness :
  Inv v123 /\ GetSize v123 <= 5 /\
  exists w',
    call (Resize 5;; Resize (GetSize v123)) v123 2 = Returns tt w' /\
    elements (this w') = elements v123 /\
    GetCapacity (this w') = 6.
Proof.
  assert (GetSize v123 <= 5) as Hn by by vm_compute.
  split; [exact Inv_v123|]. split; [exact Hn|].
  pose proof (Resize_up_and_back v123 2 5 Inv_v123 Hn) as Hp.
  destruct (call (Resize 5;; Resize (GetSize v123)) v123 2) as [[] w'|e w'|f].
  - exists w'. split; [reflexivity|]. destruct Hp as (He & _ & Hc).
    split; [exact He | exact Hc].
  - destruct Hp as (_ & _ & Hl). by vm_compute in Hl.
  - destruct Hp.
Defined.

Lemma Reserve_keeps_elements_witness :
  Inv v123 /\ 0 <= 10 /\
  exists w',
    call (Reserve 10) v123 2 = Returns tt w' /\
    elements (this w') = elements v123 /\
    GetCapacity (this w') = 10.
Proof.
  assert (0 <= 10) as Hn by done.
  split; [exact Inv_v123|]. split; [exact Hn|].
  pose proof (Reserve_keeps_elements v123 2 10 Inv_v123 Hn) as Hp.
  destruct (call (Reserve 10) v123 2) as [[] w'|e w'|f].
  - exists w'. split; [reflexivity|]. destruct Hp as (He & _ & Hc & _).
    split; [exact He | exact Hc].
  - destruct Hp as (_ & _ & _ & Hl). by vm_compute in Hl.
  - destruct Hp.
Defined.

Lemma filling_constructors_witness :
  0 <= 3 /\
  exists w',
    construct (SimpleVector_size_value 3 7) 1 = Returns tt w' /\
    elements (this w') = [7; 7; 7] /\ GetCapacity (this w') = 3.
Proof.
  assert (0 <= 3) as Hn by done.
  split; [exact Hn|].
  pose proof (proj2 (filling_constructors 3 7 1 Hn)) as Hp.
  destruct (construct (SimpleVector_size_value 3 7) 1) as [[] w'|e w'|f].
  - exists w'. split; [reflexivity|]. destruct Hp as (He & _ & Hc & _).
    split; [exact He | exact Hc].
  - destruct Hp as (_ & Hl). by vm_compute in Hl.
  - destruct Hp.
Defined.

Lemma initializer_list_constructor_witness :
  exists w',
    construct (SimpleVector_init [1; 2; 3]) 1 = Returns tt w' /\
    elements (this w') = [1; 2; 3] /\
    call (At 2) (this w') (brk w') = Returns 3 w'.
Proof.
  pose proof (initializer_list_constructor [1; 2; 3] 1) as Hp.
  destruct (construct (SimpleVector_init [1; 2; 3]) 1) as [[] w'|e w'|f].
  - exists w'. split; [reflexivity|]. destruct Hp as (He & _ & _ & Hat).
    split; [exact He | exact (Hat 2%nat 3 eq_refl)].
  - destruct Hp as (_ & Hl). by vm_compute in Hl.
  - destruct Hp.
Defined.

Lemma reserving_constructor_witness :
  0 <= 5 /\
  exists w',
    construct (SimpleVector_reserve (ReserveProxyObj.Reserve 5)) 1 = Returns tt w' /\
    GetSize (this w') = 0 /\ GetCapacity (this w') = 5.
Proof.
  assert (0 <= 5) as Hn by done.
  split; [exact Hn|].
  pose proof (reserving_constructor 5 1 Hn) as Hp.
  destruct (construct (SimpleVector_reserve (ReserveProxyObj.Reserve 5)) 1)
    as [[] w'|e w'|f].
  - exists w'. split; [reflexivity|]. destruct Hp as (Hs & _ & _ & Hc & _).
    split; [exact Hs | exact Hc].
  - destruct Hp as (_ & Hl). by vm_compute in Hl.
  - destruct Hp.
Defined.

Lemma copy_assignment_witness :
  Inv v123 /\
  exists w',
    call (operator_assign (Some v123)) v12 2 = Returns tt w' /\
    elements (this w') = elements v123 /\
    GetCapacity (this w') = 0.
Proof.
  split; [exact Inv_v123|].
  destruct (proj2 (copy_assignment v12 v123 2) Inv_v123)
    as (w' & Hrun & He & _ & Hc & _).
  exists w'. split; [exact Hrun|]. split; [exact He | exact Hc].
Defined.

Lemma PushBack_on_copy_overruns_witness :
  Inv v123 /\ 0 < GetSize v123 /\
  construct (SimpleVector_copy v123;; PushBack (object 4)) 2 = Faults out_of_bounds.
Proof.
  assert (0 < GetSize v123) as Hs by by vm_compute.
  split; [exact Inv_v123|]. split; [exact Hs|].
  exact (PushBack_on_copy_overruns v123 4 2 Inv_v123 Hs).
Defined.

Lemma comparisons_see_elements_only_witness :
  Stored v12r /\ Stored v12 /\ Stored v123 /\
  elements v12r = elements v12 /\
  operator_lt v12r v123 = operator_lt v12 v123 /\
  operator_eq v12r v123 = operator_eq v12 v123.
Proof.
  assert (elements v12r = elements v12) as He by by vm_compute.
  split; [exact Stored_v12r|]. split; [exact Stored_v12|].
  split; [exact Stored_v123|]. split; [exact He|].
  destruct (comparisons_see_elements_only v12r v12 v123 v123
              Stored_v12r Stored_v12 Stored_v123 Stored_v123 He eq_refl)
    as (Heq & _ & Hlt & _).
  split; [exact Hlt | exact Heq].
Defined.

Lemma relational_operators_total_order_witness :
  Stored v123 /\ Stored v124 /\
  operator_le v123 v124 = operator_ge v124 v123 /\
  operator_eq v123 v124 = operator_eq v124 v123.
Proof.
  split; [exact Stored_v123|]. split; [exact Stored_v124|].
  destruct (relational_operators_total_order v123 v124 Stored_v123 Stored_v124)
    as (eq & lt & gt & _ & _ & _ & _ & _ & Hle & _ & Hsym).
  split; [exact Hle | exact Hsym].
Defined.
